(** * Bucket operations of the erasure layer (cmd/erasure-bucket.go)

    A shallow embedding of [MakeBucketWithLocation], [undoDeleteBucket],
    [getBucketInfo] and [DeleteBucket], and the properties of the
    fan-out / quorum-reduce / compensate pattern they implement.

    Backend calls mutate remote state, so every operation is a computation in
    a state-and-writer monad: the state is the (abstract) state of the
    backends, the writer output is the list of calls the operation made, in
    program order.  The goroutines of one errgroup are run one after the
    other, in slot order. *)

From stdpp Require Import base list strings.
From Stdlib Require Import ZArith Lia.

Open Scope string_scope.
Open Scope list_scope.

(** ** Errors *)

(** Go [error] values.  The sentinels are the package-level variables the
    source names, followed by the object-layer errors; [errOther] stands for any other error value and [errWrap]
    for an error wrapping another one, which [errors.Is] sees through and
    [==] does not.  A possibly-nil [error] is an [option error]. *)
Inductive error : Type :=
  | errDiskNotFound
  | errFaultyDisk
  | errFaultyRemoteDisk
  | errDiskAccessDenied
  | errUnformattedDisk
  | errVolumeNotFound
  | errVolumeExists
  | errVolumeNotEmpty
  | errErasureWriteQuorum
  | errErasureReadQuorum
  | BucketNameInvalid (Bucket : string)
  | BucketNotFound (Bucket : string)
  | BucketExists (Bucket : string)
  | BucketNotEmpty (Bucket : string)
  | InsufficientWriteQuorum
  | InsufficientReadQuorum
  | errOther (msg : string)
  | errWrap (msg : string) (inner : error).

#[global] Instance error_eq_dec : EqDecision error.
Proof. solve_decision. Defined.

(** [errors.Is(err, target)]: [err] or one of the errors it wraps is
    [target]. *)
Fixpoint errors_Is_chain (err target : error) : bool :=
  if bool_decide (err = target) then true
  else match err with
       | errWrap _ inner => errors_Is_chain inner target
       | _ => false
       end.

Definition errors_Is (err : option error) (target : error) : bool :=
  match err with
  | None => false
  | Some e => errors_Is_chain e target
  end.

(** ** Volumes and buckets *)

Record VolInfo : Type := { vol_Name : string; vol_Created : Z }.
Record BucketInfo : Type := { Name : string; Created : Z }.

(** The conversion [BucketInfo(volInfo)]. *)
Definition BucketInfo_of (v : VolInfo) : BucketInfo :=
  {| Name := vol_Name v; Created := vol_Created v |}.

(** The zero value [BucketInfo{}]. *)
Definition BucketInfo_zero : BucketInfo := {| Name := ""; Created := 0 |}.

Record BucketOptions : Type := { Location : string }.
Record DeleteBucketOptions : Type := { Force : bool; NoRecreate : bool }.

Definition slashSeparator : string := "/".

(** ** The calls an operation makes *)

(** One entry per call that leaves this file: the methods of the disk in a
    slot (with the slot's index), the package-level helpers, and the entry
    into the rollback. *)
Inductive Event : Type :=
  | EvMakeVol (index : nat) (volume : string)
  | EvStatVol (index : nat) (volume : string)
  | EvDeleteVol (index : nat) (volume : string) (forceDelete : bool)
  | EvRenameFile (index : nat) (srcVolume srcPath dstVolume dstPath : string)
  | EvUndoDeleteBucket (bucket : string)
  | EvReduceWriteQuorumErrs (errs : list (option error))
      (ignoredErrs : list error) (writeQuorum : nat)
  | EvReduceReadQuorumErrs (errs : list (option error))
      (ignoredErrs : list error) (readQuorum : nat)
  | EvLogIf (err : error)
  | EvNSUpdated (bucket prefix : string).

Definition is_undo (e : Event) : bool :=
  match e with EvUndoDeleteBucket _ => true | _ => false end.

Definition is_relocate (e : Event) : bool :=
  match e with EvRenameFile _ _ _ _ _ => true | _ => false end.

Definition is_relocate_at (i : nat) (e : Event) : bool :=
  match e with EvRenameFile j _ _ _ _ => bool_decide (j = i) | _ => false end.

Definition is_reduce (e : Event) : bool :=
  match e with
  | EvReduceWriteQuorumErrs _ _ _ | EvReduceReadQuorumErrs _ _ _ => true
  | _ => false
  end.

(** A method call on a disk. *)
Definition is_backend (e : Event) : bool :=
  match e with
  | EvMakeVol _ _ | EvStatVol _ _ | EvDeleteVol _ _ _
  | EvRenameFile _ _ _ _ _ => true
  | _ => false
  end.

(** A method call on the disk of slot [i]. *)
Definition is_backend_at (i : nat) (e : Event) : bool :=
  match e with
  | EvMakeVol j _ | EvStatVol j _ | EvDeleteVol j _ _
  | EvRenameFile j _ _ _ _ => bool_decide (j = i)
  | _ => false
  end.

Definition is_makevol_at (i : nat) (e : Event) : bool :=
  match e with EvMakeVol j _ => bool_decide (j = i) | _ => false end.

Fixpoint count (p : Event -> bool) (evs : list Event) : nat :=
  match evs with
  | [] => 0
  | e :: evs' => (if p e then 1 else 0) + count p evs'
  end.

(** How many slots of a result vector hold exactly the error [e], and how
    many hold nil. *)
Definition occurrences (e : error) (errs : list (option error)) : nat :=
  length (List.filter (fun x => bool_decide (x = Some e)) errs).

Definition successes (errs : list (option error)) : nat :=
  length (List.filter (fun x => bool_decide (x = None)) errs).

(** A slot of the backend set is live when it holds a disk. *)
Definition isLive {Disk} (disk : option Disk) : bool :=
  match disk with Some _ => true | None => false end.

Definition liveAt {Disk} (storageDisks : list (option Disk)) (i : nat) : bool :=
  match storageDisks !! i with Some disk => isLive disk | None => false end.

(** ** The monad *)

Record Res (World A : Type) : Type :=
  MkRes { val : A; world : World; events : list Event }.
Arguments MkRes {World A} _ _ _.
Arguments val {World A} _.
Arguments world {World A} _.
Arguments events {World A} _.

Definition M (World A : Type) : Type := World -> Res World A.

Definition ret {World A} (a : A) : M World A := fun w => MkRes a w [].

Definition bind {World A B} (m : M World A) (k : A -> M World B) : M World B :=
  fun w =>
    let r := m w in
    let r' := k (val r) (world r) in
    MkRes (val r') (world r') (events r ++ events r').

Definition emit {World} (e : Event) : M World unit := fun w => MkRes tt w [e].

(** A call that changes the backends' state and is recorded as [e]. *)
Definition call {World A} (e : Event) (f : World -> A * World) : M World A :=
  fun w => let '(a, w') := f w in MkRes a w' [e].

Notation "x <- m ;; k" := (bind m (fun x => k))
  (at level 100, m at next level, right associativity).
Notation "m >> k" := (bind m (fun _ => k))
  (at level 100, right associativity).

(** [for index, x := range xs { l = body(index, x, l) }], with the loop's
    variables in [l]. *)
Fixpoint forRange {World A L} (body : nat -> A -> L -> M World L)
    (index : nat) (xs : list A) (l : L) : M World L :=
  match xs with
  | [] => ret l
  | x :: xs' => l' <- body index x l ;; forRange body (S index) xs' l'
  end.

(** ** internal/sync/errgroup *)

(** Modelled from the spec: the errgroup package (internal/sync/errgroup) is
    not part of this file.  Section 4.1: the executor runs the action for
    every slot and returns one result per slot, indexed by original position,
    once all invocations are complete.  A group made by [WithNErrs n] holds
    [n] results, all nil; [Go f index] runs [f] and records a non-nil result
    at [index]; [Wait] returns the results.  A closure may assign to
    variables of the enclosing function: these are the [L] it threads. *)
Record Group : Type := { errs : list (option error) }.

Definition WithNErrs (n : nat) : Group := {| errs := replicate n None |}.

Definition Go {World L} (f : L -> M World (option error * L)) (index : nat)
    (gl : Group * L) : M World (Group * L) :=
  r <- f gl.2 ;;
  ret (match r.1 with
       | Some e => {| errs := <[index := Some e]> (errs gl.1) |}
       | None => gl.1
       end, r.2).

Definition Wait {World} (g : Group) : M World (list (option error)) :=
  ret (errs g).

(** A closure that assigns to no variable of the enclosing function. *)
Definition closure {World} (f : M World (option error)) :
    unit -> M World (option error * unit) :=
  fun _ => err <- f ;; ret (err, tt).

(** ** The storage interface and the rest of package cmd *)

(** The methods of [StorageAPI] the bucket operations call.  [World] is the
    state of all backends. *)
Class StorageAPI (Disk World : Type) : Type := {
  MakeVol : Disk -> string -> World -> option error * World;
  StatVol : Disk -> string -> World -> (VolInfo * option error) * World;
  DeleteVol : Disk -> string -> bool -> World -> option error * World;
  RenameFile :
    Disk -> string -> string -> string -> string -> World ->
    option error * World
}.

(** What the file uses of the rest of the package and of its imports. *)
Record Env (World : Type) : Type := {
  CheckValidBucketNameStrict : string -> option error;
  getWriteQuorum : nat -> nat;
  getReadQuorum : nat -> nat;
  reduceWriteQuorumErrs :
    list (option error) -> list error -> nat -> option error;
  reduceReadQuorumErrs :
    list (option error) -> list error -> nat -> option error;
  baseIgnoredErrs : list error;
  objectErrOf : error -> string -> error;
  minioMetaTmpDeletedBucket : string;
  mustGetUUID : World -> string * World
}.
Arguments CheckValidBucketNameStrict {World} _ _.
Arguments getWriteQuorum {World} _ _.
Arguments getReadQuorum {World} _ _.
Arguments reduceWriteQuorumErrs {World} _ _ _ _.
Arguments reduceReadQuorumErrs {World} _ _ _ _.
Arguments baseIgnoredErrs {World} _.
Arguments objectErrOf {World} _ _ _.
Arguments minioMetaTmpDeletedBucket {World} _.
Arguments mustGetUUID {World} _ _.

Record erasureObjects (Disk : Type) : Type :=
  { getDisks : list (option Disk) }.
Arguments getDisks {Disk} _.

(** ** The operations *)

Section Operations.
Context {Disk World : Type} `{!StorageAPI Disk World}.
Variable env : Env World.

Local Abbreviation M := (M World).

(** [bucketOpIgnoredErrs] and [bucketMetadataOpIgnoredErrs]. *)
Definition bucketOpIgnoredErrs : list error :=
  baseIgnoredErrs env ++ [errDiskAccessDenied; errUnformattedDisk].

Definition bucketMetadataOpIgnoredErrs : list error :=
  bucketOpIgnoredErrs ++ [errVolumeNotFound].

(** Modelled from the spec: [toObjectErr] is defined elsewhere in the
    package.  Section 4.2: errors are translated at the workflow boundary
    into domain-level outcomes; success (nil) stays nil and an error stays
    an error, whose translation [objectErrOf] is left open. *)
Definition toObjectErr (err : option error) (bucket : string) :
    option error :=
  match err with
  | None => None
  | Some e => Some (objectErrOf env e bucket)
  end.

(** The calls to the reducers, recorded with their arguments. *)
Definition callReduceWriteQuorumErrs (errs : list (option error))
    (ignoredErrs : list error) (writeQuorum : nat) : M (option error) :=
  emit (EvReduceWriteQuorumErrs errs ignoredErrs writeQuorum) >>
  ret (reduceWriteQuorumErrs env errs ignoredErrs writeQuorum).

Definition callReduceReadQuorumErrs (errs : list (option error))
    (ignoredErrs : list error) (readQuorum : nat) : M (option error) :=
  emit (EvReduceReadQuorumErrs errs ignoredErrs readQuorum) >>
  ret (reduceReadQuorumErrs env errs ignoredErrs readQuorum).

(** [defer NSUpdated(bucket, slashSeparator)]: runs when the function
    returns, on every path. *)
Definition deferNSUpdated {A} (bucket : string) (body : M A) : M A :=
  r <- body ;;
  emit (EvNSUpdated bucket slashSeparator) >>
  ret r.

(** *** MakeBucketWithLocation *)

(** The closure handed to [g.Go] for slot [index]. *)
Definition makeVolTask (bucket : string) (index : nat)
    (disk : option Disk) : M (option error) :=
  match disk with
  | Some d =>
      err <- call (EvMakeVol index bucket) (MakeVol d bucket) ;;
      match err with
      | Some e =>
          (if negb (errors_Is (Some e) errVolumeExists)
           then emit (EvLogIf e) else ret tt) >>
          ret (Some e)
      | None => ret None
      end
  | None => ret (Some errDiskNotFound)
  end.

(** Lines 48-65 and [g.Wait()]: the result vector of the create. *)
Definition makeVolFanout (storageDisks : list (option Disk))
    (bucket : string) : M (list (option error)) :=
  gl <- forRange
          (fun index disk => Go (closure (makeVolTask bucket index disk)) index)
          0 storageDisks (WithNErrs (length storageDisks), tt) ;;
  Wait gl.1.

Definition MakeBucketWithLocation (er : erasureObjects Disk)
    (bucket : string) (opts : BucketOptions) : M (option error) :=
  deferNSUpdated bucket
    match CheckValidBucketNameStrict env bucket with
    | Some _ => ret (Some (BucketNameInvalid bucket))
    | None =>
        let storageDisks := getDisks er in
        errs <- makeVolFanout storageDisks bucket ;;
        let writeQuorum := getWriteQuorum env (length storageDisks) in
        err <- callReduceWriteQuorumErrs errs bucketOpIgnoredErrs writeQuorum ;;
        ret (toObjectErr err bucket)
    end.

(** *** undoDeleteBucket *)

Definition undoTask (bucket : string) (index : nat) (d : Disk) :
    M (option error) :=
  _ <- call (EvMakeVol index bucket) (MakeVol d bucket) ;;
  ret None.

(** Lines 76-83, the body of the loop: an absent slot is skipped. *)
Definition undoBody (bucket : string) (index : nat) (disk : option Disk)
    (gl : Group * unit) : M (Group * unit) :=
  match disk with
  | None => ret gl
  | Some d => Go (closure (undoTask bucket index d)) index gl
  end.

(** Lines 73-87: the loop of the rollback and the value of [g.Wait()]. *)
Definition undoFanout (storageDisks : list (option Disk))
    (bucket : string) : M (list (option error)) :=
  gl <- forRange (undoBody bucket) 0 storageDisks
          (WithNErrs (length storageDisks), tt) ;;
  Wait gl.1.

(** The function has no result: what [g.Wait()] returns is dropped. *)
Definition undoDeleteBucket (storageDisks : list (option Disk))
    (bucket : string) : M unit :=
  emit (EvUndoDeleteBucket bucket) >>
  _ <- undoFanout storageDisks bucket ;;
  ret tt.

(** *** getBucketInfo *)

(** The closure of [getBucketInfo]; it assigns to [bucketsInfo[index]]. *)
Definition statVolTask (bucketName : string) (index : nat)
    (disk : option Disk) (bucketsInfo : list BucketInfo) :
    M (option error * list BucketInfo) :=
  match disk with
  | None => ret (Some errDiskNotFound, bucketsInfo)
  | Some d =>
      r <- call (EvStatVol index bucketName) (StatVol d bucketName) ;;
      match r.2 with
      | Some e => ret (Some e, bucketsInfo)
      | None => ret (None, <[index := BucketInfo_of r.1]> bucketsInfo)
      end
  end.

(** Lines 94-112: the result vector of the stat, and [bucketsInfo]. *)
Definition statVolFanout (storageDisks : list (option Disk))
    (bucketName : string) : M (list (option error) * list BucketInfo) :=
  gl <- forRange
          (fun index disk => Go (statVolTask bucketName index disk) index)
          0 storageDisks
          (WithNErrs (length storageDisks),
           replicate (length storageDisks) BucketInfo_zero) ;;
  errs <- Wait gl.1 ;;
  ret (errs, gl.2).

(** [for i, err := range errs { if err == nil { return bucketsInfo[i], nil } }]:
    the value returned from inside the loop, if any.  [bucketsInfo] has as
    many entries as [errs], so [bucketsInfo[i]] is in range. *)
Fixpoint firstSuccess (i : nat) (errs : list (option error))
    (bucketsInfo : list BucketInfo) : option BucketInfo :=
  match errs with
  | [] => None
  | None :: _ => Some (default BucketInfo_zero (bucketsInfo !! i))
  | Some _ :: errs' => firstSuccess (S i) errs' bucketsInfo
  end.

Definition getBucketInfo (er : erasureObjects Disk) (bucketName : string) :
    M (BucketInfo * option error) :=
  let storageDisks := getDisks er in
  r <- statVolFanout storageDisks bucketName ;;
  match firstSuccess 0 r.1 r.2 with
  | Some bi => ret (bi, None)
  | None =>
      let readQuorum := getReadQuorum env (length storageDisks) in
      err <- callReduceReadQuorumErrs r.1 [] readQuorum ;;
      ret (BucketInfo_zero, err)
  end.

Definition GetBucketInfo (er : erasureObjects Disk) (bucket : string) :
    M (BucketInfo * option error) :=
  r <- getBucketInfo er bucket ;;
  match r.2 with
  | Some e => ret (BucketInfo_zero, toObjectErr (Some e) bucket)
  | None => ret (r.1, None)
  end.

(** *** DeleteBucket *)

Definition deleteVolTask (bucket : string) (force : bool) (index : nat)
    (disk : option Disk) : M (option error) :=
  match disk with
  | Some d => call (EvDeleteVol index bucket force) (DeleteVol d bucket force)
  | None => ret (Some errDiskNotFound)
  end.

(** Lines 144-157: the result vector of the delete. *)
Definition deleteVolFanout (storageDisks : list (option Disk))
    (bucket : string) (force : bool) : M (list (option error)) :=
  gl <- forRange
          (fun index disk =>
             Go (closure (deleteVolTask bucket force index disk)) index)
          0 storageDisks (WithNErrs (length storageDisks), tt) ;;
  Wait gl.1.

(** Lines 160-167, the loop of the force mode. *)
Fixpoint forceLoop (storageDisks : list (option Disk)) (bucket : string)
    (dErrs : list (option error)) : M (option error) :=
  match dErrs with
  | [] => ret None
  | Some e :: _ =>
      undoDeleteBucket storageDisks bucket >>
      ret (toObjectErr (Some e) bucket)
  | None :: dErrs' => forceLoop storageDisks bucket dErrs'
  end.

(** [mustGetUUID()]: a fresh name, drawn from the state. *)
Definition callMustGetUUID : M string :=
  fun w => let '(u, w') := mustGetUUID env w in MkRes u w' [].

(** Lines 180-185, the loop over [dErrs]; the value is [purgedDangling].
    [dErrs] has one entry per slot, so [storageDisks[index]] is in range;
    the arm for an index past the end is never taken. *)
Fixpoint purgeLoop (storageDisks : list (option Disk)) (bucket : string)
    (index : nat) (dErrs : list (option error)) (purgedDangling : bool) :
    M bool :=
  match dErrs with
  | [] => ret purgedDangling
  | err :: dErrs' =>
      if bool_decide (err = Some errVolumeNotEmpty) then
        match storageDisks !! index with
        | Some (Some d) =>
            uuid <- callMustGetUUID ;;
            _ <- call (EvRenameFile index bucket ""
                         (minioMetaTmpDeletedBucket env) uuid)
                      (RenameFile d bucket ""
                         (minioMetaTmpDeletedBucket env) uuid) ;;
            purgeLoop storageDisks bucket (S index) dErrs' true
        | _ => purgeLoop storageDisks bucket (S index) dErrs' purgedDangling
        end
      else purgeLoop storageDisks bucket (S index) dErrs' purgedDangling
  end.

Definition DeleteBucket (er : erasureObjects Disk) (bucket : string)
    (opts : DeleteBucketOptions) : M (option error) :=
  deferNSUpdated bucket
    (let storageDisks := getDisks er in
     dErrs <- deleteVolFanout storageDisks bucket (Force opts) ;;
     if Force opts then forceLoop storageDisks bucket dErrs
     else
       let writeQuorum := getWriteQuorum env (length storageDisks) in
       err <- callReduceWriteQuorumErrs dErrs bucketOpIgnoredErrs
                writeQuorum ;;
       (if bool_decide (err = Some errErasureWriteQuorum)
           && negb (NoRecreate opts)
        then undoDeleteBucket storageDisks bucket else ret tt) >>
       err' <- (if bool_decide (err = None)
                   || errors_Is err errVolumeNotFound
                then
                  purgedDangling <- purgeLoop storageDisks bucket 0 dErrs
                                      false ;;
                  ret (if purgedDangling then None else err)
                else ret err) ;;
       ret (toObjectErr err' bucket)).
End Operations.

(** How many entries of [dErrs] hold [errVolumeNotEmpty] at a live slot, the
    first entry being that of slot [index]: the test of line 181. *)
Fixpoint notEmptyLive {Disk} (storageDisks : list (option Disk)) (index : nat)
    (dErrs : list (option error)) : nat :=
  match dErrs with
  | [] => 0
  | err :: rest =>
      (if bool_decide (err = Some errVolumeNotEmpty)
          && liveAt storageDisks index then 1 else 0)
      + notEmptyLive storageDisks (S index) rest
  end.

(** The conditions of lines 172 and 176. *)
Definition rollsBack (err : option error) (opts : DeleteBucketOptions) : bool :=
  bool_decide (err = Some errErasureWriteQuorum) && negb (NoRecreate opts).

Definition inspectsSlots (err : option error) : bool :=
  bool_decide (err = None) || errors_Is err errVolumeNotFound.

(** A call to the write-quorum reducer with the ignored errors [ign]. *)
Definition is_reduce_ignoring (ign : list error) (e : Event) : bool :=
  match e with
  | EvReduceWriteQuorumErrs _ ignoredErrs _ => bool_decide (ignoredErrs = ign)
  | _ => false
  end.

(** The first non-nil entry of a result vector, if any: the error the loop
    of lines 160-165 stops at. *)
Fixpoint firstErr (dErrs : list (option error)) : option error :=
  match dErrs with
  | [] => None
  | Some e :: _ => Some e
  | None :: rest => firstErr rest
  end.

(** The indices of the live slots of [storageDisks], the first slot having
    index [start]. *)
Fixpoint liveIndices {Disk} (start : nat) (storageDisks : list (option Disk)) :
    list nat :=
  match storageDisks with
  | [] => []
  | Some _ :: rest => start :: liveIndices (S start) rest
  | None :: rest => liveIndices (S start) rest
  end.

(** ** A concrete environment *)

(** Scripted disks and the collaborators of the file as the specification
    describes them, to run the operations on concrete inputs. *)
Module Scripted.

(** A disk that answers every call with a fixed result. *)
Record Disk : Type := {
  onMakeVol : option error;
  onStatVol : VolInfo * option error;
  onDeleteVol : option error;
  onRenameFile : option error
}.

(** The state counts the names handed out by [mustGetUUID]. *)
Definition World : Type := nat.

#[global] Instance storage : StorageAPI Disk World := {
  MakeVol d _ w := (onMakeVol d, w);
  StatVol d _ w := (onStatVol d, w);
  DeleteVol d _ _ w := (onDeleteVol d, w);
  RenameFile d _ _ _ _ w := (onRenameFile d, w)
}.

(** [IsErrIgnored(err, ignoredErrs...)]. *)
Definition IsErrIgnored (err : error) (ignoredErrs : list error) : bool :=
  existsb (errors_Is_chain err) ignoredErrs.

(** The dominant error: the non-ignored error on the largest number of
    slots, the lowest slot index winning a tie. *)
Fixpoint dominant (all rest : list (option error)) (ignoredErrs : list error)
    (best : option error) : option error :=
  match rest with
  | [] => best
  | None :: rest' => dominant all rest' ignoredErrs best
  | Some e :: rest' =>
      if IsErrIgnored e ignoredErrs then dominant all rest' ignoredErrs best
      else
        match best with
        | Some b =>
            if (occurrences b all <? occurrences e all)%nat
            then dominant all rest' ignoredErrs (Some e)
            else dominant all rest' ignoredErrs best
        | None => dominant all rest' ignoredErrs (Some e)
        end
  end.

(** Modelled from the spec: the reducer is defined elsewhere in the
    package.  Section 4.2: if the count of nil slots reaches the quorum the
    outcome is nil; otherwise the dominant error is returned if its count
    reaches the quorum, and the quorum-failure sentinel if not. *)
Definition reduceQuorumErrs (errs : list (option error))
    (ignoredErrs : list error) (quorum : nat) (quorumErr : error) :
    option error :=
  if (quorum <=? successes errs)%nat then None
  else
    match dominant errs errs ignoredErrs None with
    | Some e => if (quorum <=? occurrences e errs)%nat then Some e
                else Some quorumErr
    | None => Some quorumErr
    end.

(** Modelled from the spec: the translation of [toObjectErr] for a bucket,
    defined elsewhere in the package (section 4.2, "bucket does not exist"
    against "too many backends unreachable"). *)
Definition bucketErrOf (e : error) (bucket : string) : error :=
  match e with
  | errVolumeNotFound => BucketNotFound bucket
  | errVolumeNotEmpty => BucketNotEmpty bucket
  | errVolumeExists => BucketExists bucket
  | errErasureWriteQuorum => InsufficientWriteQuorum
  | errErasureReadQuorum => InsufficientReadQuorum
  | _ => e
  end.

(** Modelled from the spec: the validation of bucket names is an external
    collaborator; here a name is valid when it has 3 to 63 characters. *)
Definition checkBucketName (bucket : string) : option error :=
  if (String.length bucket <? 3)%nat || (63 <? String.length bucket)%nat
  then Some (errOther "Bucket name is not valid")
  else None.

(** Modelled from the spec: the quorum policy is a black box that returns a
    threshold between 1 and the number of slots; section 8 has a write
    quorum of 3 for 4 slots.  The base list of ignored errors holds the
    errors of an absent or unreachable backend (section 7). *)
Definition env : Env World := {|
  CheckValidBucketNameStrict := checkBucketName;
  getWriteQuorum n := n / 2 + 1;
  getReadQuorum n := n - n / 2;
  reduceWriteQuorumErrs errs ignoredErrs q :=
    reduceQuorumErrs errs ignoredErrs q errErasureWriteQuorum;
  reduceReadQuorumErrs errs ignoredErrs q :=
    reduceQuorumErrs errs ignoredErrs q errErasureReadQuorum;
  baseIgnoredErrs := [errDiskNotFound; errFaultyDisk; errFaultyRemoteDisk];
  objectErrOf := bucketErrOf;
  minioMetaTmpDeletedBucket := ".minio.sys/tmp/.trash";
  mustGetUUID w := ("uuid", S w)
|}.

(** A disk whose [DeleteVol] answers [err] and whose other calls succeed. *)
Definition deleting (err : option error) : option Disk :=
  Some {| onMakeVol := None;
          onStatVol := ({| vol_Name := "b"; vol_Created := 0 |}, None);
          onDeleteVol := err;
          onRenameFile := None |}.

(** A disk whose [DeleteVol] and [RenameFile] both fail. *)
Definition stuck (err : error) : option Disk :=
  Some {| onMakeVol := None;
          onStatVol := ({| vol_Name := "b"; vol_Created := 0 |}, None);
          onDeleteVol := Some err;
          onRenameFile := Some errFaultyDisk |}.

(** A disk whose [StatVol] answers [info] and which has nothing to create or
    delete. *)
Definition holding (info : VolInfo) : option Disk :=
  Some {| onMakeVol := Some errVolumeExists;
          onStatVol := (info, None);
          onDeleteVol := None;
          onRenameFile := None |}.

(** The same environment with every slot required for a read. *)
Definition envReadAll : Env World := {|
  CheckValidBucketNameStrict := checkBucketName;
  getWriteQuorum n := n / 2 + 1;
  getReadQuorum n := n;
  reduceWriteQuorumErrs errs ignoredErrs q :=
    reduceQuorumErrs errs ignoredErrs q errErasureWriteQuorum;
  reduceReadQuorumErrs errs ignoredErrs q :=
    reduceQuorumErrs errs ignoredErrs q errErasureReadQuorum;
  baseIgnoredErrs := [errDiskNotFound; errFaultyDisk; errFaultyRemoteDisk];
  objectErrOf := bucketErrOf;
  minioMetaTmpDeletedBucket := ".minio.sys/tmp/.trash";
  mustGetUUID w := ("uuid", S w)
|}.

Definition quorumMode : DeleteBucketOptions :=
  {| Force := false; NoRecreate := false |}.

Definition forceMode : DeleteBucketOptions :=
  {| Force := true; NoRecreate := false |}.
End Scripted.

(** ** More kinds of calls, and the fan-out as a sequence *)

Definition is_makevol (e : Event) : bool :=
  match e with EvMakeVol _ _ => true | _ => false end.

Definition is_statvol_at (i : nat) (e : Event) : bool :=
  match e with EvStatVol j _ => bool_decide (j = i) | _ => false end.

(** [DeleteVol] on the disk of slot [i] with the flag [force]. *)
Definition is_deletevol_at (i : nat) (force : bool) (e : Event) : bool :=
  match e with
  | EvDeleteVol j _ f => bool_decide (j = i) && bool_decide (f = force)
  | _ => false
  end.

Definition is_deletevol (e : Event) : bool :=
  match e with EvDeleteVol _ _ _ => true | _ => false end.

Definition is_log (e : Event) : bool :=
  match e with EvLogIf _ => true | _ => false end.

Definition is_nsupdated (e : Event) : bool :=
  match e with EvNSUpdated _ _ => true | _ => false end.

(** A [RenameFile] that is not the move of the whole of [bucket] (empty
    source path) into the volume [dst]. *)
Definition is_misdirected (bucket dst : string) (e : Event) : bool :=
  match e with
  | EvRenameFile _ srcVolume srcPath dstVolume _ =>
      negb (bool_decide (srcVolume = bucket) && bool_decide (srcPath = "")
            && bool_decide (dstVolume = dst))
  | _ => false
  end.

(** The tasks of a fan-out run one after the other, their results collected
    in slot order: what the loop over [g.Go] and [g.Wait()] amount to. *)
Fixpoint runTasks {World A L}
    (task : nat -> A -> L -> M World (option error * L))
    (index : nat) (xs : list A) (l : L) : M World (list (option error) * L) :=
  match xs with
  | [] => ret ([], l)
  | x :: xs' =>
      r <- task index x l ;;
      rs <- runTasks task (S index) xs' r.2 ;;
      ret (r.1 :: rs.1, rs.2)
  end.

(** The slots whose [MakeVol] error is logged by line 57: the live slots
    whose entry is an error that is not [errVolumeExists]. *)
Fixpoint loggedSlots {Disk} (storageDisks : list (option Disk))
    (errs : list (option error)) : nat :=
  match storageDisks, errs with
  | disk :: disks', err :: errs' =>
      (if isLive disk
          && match err with
             | Some e => negb (errors_Is (Some e) errVolumeExists)
             | None => false
             end
       then 1 else 0)
      + loggedSlots disks' errs'
  | _, _ => 0
  end.

(** A scripted disk with the given answers to [MakeVol], [StatVol],
    [DeleteVol] and [RenameFile]. *)
Definition scriptedDisk (mk : option error) (st : VolInfo * option error)
    (dl rn : option error) : option Scripted.Disk :=
  Some {| Scripted.onMakeVol := mk; Scripted.onStatVol := st;
          Scripted.onDeleteVol := dl; Scripted.onRenameFile := rn |}.

(** ** Counting calls *)

Lemma count_app p evs1 evs2 :
  count p (evs1 ++ evs2) = count p evs1 + count p evs2.
Proof.
  induction evs1 as [|e evs1 IH]; simpl; [done|]. rewrite IH. lia.
Qed.

Lemma count_bind {World A B} p (m : M World A) (k : A -> M World B) w :
  count p (events (bind m k w)) =
  count p (events (m w)) + count p (events (k (val (m w)) (world (m w)))).
Proof. unfold bind. simpl. apply count_app. Qed.

Lemma events_call {World A} e (f : World -> A * World) w :
  events (call e f w) = [e].
Proof. unfold call. by destruct (f w). Qed.

Lemma val_call {World A} e (f : World -> A * World) w :
  val (call e f w) = (f w).1.
Proof. unfold call. by destruct (f w). Qed.

Lemma world_call {World A} e (f : World -> A * World) w :
  world (call e f w) = (f w).2.
Proof. unfold call. by destruct (f w). Qed.

(** A loop whose body makes no call of kind [p] makes none. *)
Lemma forRange_count_none {World A L} (p : Event -> bool)
    (body : nat -> A -> L -> M World L) :
  (forall i x l w, count p (events (body i x l w)) = 0) ->
  forall xs start l w, count p (events (forRange body start xs l w)) = 0.
Proof.
  intros Hbody xs. induction xs as [|x xs IH]; intros start l w; simpl.
  - done.
  - rewrite count_app, Hbody, IH. done.
Qed.

(** A loop whose body makes one call of kind [p] exactly at a live slot [i]
    makes one such call if slot [i] is live and none otherwise. *)
Lemma forRange_count_slot {World Disk L} (p : Event -> bool) (i : nat)
    (body : nat -> option Disk -> L -> M World L) :
  (forall j x l w,
     count p (events (body j x l w)) =
     if bool_decide (j = i) && isLive x then 1 else 0) ->
  forall xs start l w,
    count p (events (forRange body start xs l w)) =
    if bool_decide (start <= i) && liveAt xs (i - start) then 1 else 0.
Proof.
  intros Hbody xs. induction xs as [|x xs IH]; intros start l w; simpl.
  - unfold liveAt. rewrite lookup_nil. by rewrite andb_false_r.
  - rewrite count_app, Hbody, IH. unfold liveAt.
    destruct (decide (start = i)) as [->|Hne].
    + rewrite bool_decide_true by done. rewrite Nat.sub_diag. simpl.
      rewrite (bool_decide_false (S i <= i)) by lia.
      rewrite bool_decide_true by lia. simpl. lia.
    + rewrite (bool_decide_false (start = i)) by done. simpl.
      destruct (decide (start <= i)) as [Hle|Hgt].
      * rewrite !bool_decide_true by lia.
        replace (i - start) with (S (i - S start)) by lia. done.
      * rewrite !bool_decide_false by lia. done.
Qed.

(** ** The result vector of a fan-out *)

Lemma events_Go {World L} (f : L -> M World (option error * L)) index gl w :
  events (Go f index gl w) = events (f gl.2 w).
Proof. unfold Go, bind, ret. simpl. by rewrite app_nil_r. Qed.

Lemma events_closure {World} (f : M World (option error)) u w :
  events (closure f u w) = events (f w).
Proof. unfold closure, bind, ret. simpl. by rewrite app_nil_r. Qed.

Lemma forRange_cons {World A L} (body : nat -> A -> L -> M World L)
    start x xs l w :
  forRange body start (x :: xs) l w =
  let r := body start x l w in
  let r' := forRange body (S start) xs (val r) (world r) in
  MkRes (val r') (world r') (events r ++ events r').
Proof. done. Qed.

Lemma Go_errs {World L} (f : L -> M World (option error * L)) index g l w :
  errs (val (Go f index (g, l) w)).1 =
  match (val (f l w)).1 with
  | Some e => <[index := Some e]> (errs g)
  | None => errs g
  end.
Proof. unfold Go, bind, ret. simpl. by destruct (val (f l w)).1. Qed.

(** The loop [for index := range storageDisks { g.Go(task, index) }] keeps
    the size of the group, leaves the slots before [start] alone, and an
    absent slot ends with [errDiskNotFound] when the task answers so. *)
Lemma Go_loop_errs {World Disk L}
    (task : nat -> option Disk -> L -> M World (option error * L)) :
  (forall index l w, (val (task index None l w)).1 = Some errDiskNotFound) ->
  forall xs start g l w,
    let r := val (forRange (fun index disk => Go (task index disk) index)
                    start xs (g, l) w) in
    length (errs r.1) = length (errs g) /\
    (forall i, i < start -> errs r.1 !! i = errs g !! i) /\
    (forall k, xs !! k = Some None -> start + k < length (errs g) ->
       errs r.1 !! (start + k) = Some (Some errDiskNotFound)).
Proof.
  intros Habs xs. induction xs as [|x xs IH]; intros start g l w; cbv zeta.
  - split; [done|]. split; [done|]. intros k Hk. by rewrite lookup_nil in Hk.
  - rewrite forRange_cons. cbv zeta. cbn [val].
    pose proof (Go_errs (task start x) start g l w) as Hgo.
    set (r1 := Go (task start x) start (g, l) w) in *.
    destruct (val r1) as [g1 l1] eqn:Er1. simpl in Hgo.
    destruct (IH (S start) g1 l1 (world r1)) as (Hlen & Hbefore & Habsent).
    assert (Hg1 : length (errs g1) = length (errs g)).
    { rewrite Hgo. destruct (val (task start x l w)).1; [|done].
      by rewrite length_insert. }
    assert (Hkeep : forall i, i < start -> errs g1 !! i = errs g !! i).
    { intros i Hi. rewrite Hgo. destruct (val (task start x l w)).1; [|done].
      rewrite list_lookup_insert_ne by lia. done. }
    split; [congruence|]. split.
    + intros i Hi. rewrite Hbefore by lia. apply Hkeep. done.
    + intros [|k] Hk Hin.
      * simpl in Hk. injection Hk as ->.
        rewrite Nat.add_0_r in *. rewrite Hbefore by lia.
        rewrite Hgo, Habs. by rewrite list_lookup_insert_eq.
      * simpl in Hk. replace (start + S k) with (S start + k) by lia.
        apply Habsent; [done|]. rewrite Hg1. lia.
Qed.

(** The vector a fan-out hands to [g.Wait()]: one entry per slot, and
    [errDiskNotFound] in the entry of an absent slot. *)
Lemma fanout_vector {World Disk L}
    (task : nat -> option Disk -> L -> M World (option error * L))
    (storageDisks : list (option Disk)) l w :
  (forall index l w, (val (task index None l w)).1 = Some errDiskNotFound) ->
  let r := val (forRange (fun index disk => Go (task index disk) index)
                  0 storageDisks (WithNErrs (length storageDisks), l) w) in
  length (errs r.1) = length storageDisks /\
  (forall i, storageDisks !! i = Some None ->
     errs r.1 !! i = Some (Some errDiskNotFound)).
Proof.
  intros Habs.
  destruct (Go_loop_errs task Habs storageDisks 0
              (WithNErrs (length storageDisks)) l w) as (Hlen & _ & Habsent).
  simpl in Hlen, Habsent. rewrite length_replicate in Hlen, Habsent.
  split; [done|]. intros i Hi. apply Habsent; [done|].
  by eapply lookup_lt_Some.
Qed.

(** A fan-out whose task calls the disk of its own slot once, and only when
    the slot is live. *)
Lemma fanout_backend_at {World Disk L}
    (task : nat -> option Disk -> L -> M World (option error * L))
    (storageDisks : list (option Disk)) i gl w :
  (forall j x l w,
     count (is_backend_at i) (events (task j x l w)) =
     if bool_decide (j = i) && isLive x then 1 else 0) ->
  count (is_backend_at i)
    (events (forRange (fun index disk => Go (task index disk) index)
               0 storageDisks gl w)) =
  if liveAt storageDisks i then 1 else 0.
Proof.
  intros Htask.
  rewrite (forRange_count_slot (is_backend_at i) i).
  - rewrite Nat.sub_0_r. by rewrite bool_decide_true by lia.
  - intros j x l1 w1. rewrite events_Go. apply Htask.
Qed.

Section FanoutFacts.
Context {Disk World : Type} `{!StorageAPI Disk World}.
Implicit Types (storageDisks : list (option Disk)) (bucket : string).
Implicit Types (w : World) (disk : option Disk).

Lemma makeVolTask_events p bucket index disk w :
  (forall j v, p (EvMakeVol j v) = false) ->
  (forall e, p (EvLogIf e) = false) ->
  count p (events (makeVolTask bucket index disk w)) = 0.
Proof.
  intros Hmk Hlog. destruct disk as [d|]; [|done].
  unfold makeVolTask, call, bind, emit, ret.
  destruct (MakeVol d bucket w) as [[e|] w1]; simpl; rewrite Hmk; [|done].
  destruct (negb _); simpl; [by rewrite Hlog|done].
Qed.

Lemma makeVolTask_backend_at i bucket index disk w :
  count (is_backend_at i) (events (makeVolTask bucket index disk w)) =
  if bool_decide (index = i) && isLive disk then 1 else 0.
Proof.
  destruct disk as [d|]; simpl; [|by rewrite andb_false_r].
  unfold call, bind, emit, ret. rewrite andb_true_r.
  destruct (MakeVol d bucket w) as [[e|] w1]; simpl.
  - destruct (negb _); simpl; by destruct (bool_decide _).
  - by destruct (bool_decide _).
Qed.

Lemma statVolTask_events p bucket index disk bucketsInfo w :
  (forall j v, p (EvStatVol j v) = false) ->
  count p (events (statVolTask bucket index disk bucketsInfo w)) = 0.
Proof.
  intros Hst. destruct disk as [d|]; [|done].
  unfold statVolTask, call, bind, ret.
  destruct (StatVol d bucket w) as [[v [e|]] w1]; simpl; by rewrite Hst.
Qed.

Lemma statVolTask_backend_at i bucket index disk bucketsInfo w :
  count (is_backend_at i)
    (events (statVolTask bucket index disk bucketsInfo w)) =
  if bool_decide (index = i) && isLive disk then 1 else 0.
Proof.
  destruct disk as [d|]; simpl; [|by rewrite andb_false_r].
  unfold call, bind, ret. rewrite andb_true_r.
  destruct (StatVol d bucket w) as [[v [e|]] w1]; simpl;
    by destruct (bool_decide _).
Qed.

Lemma deleteVolTask_events p bucket force index disk w :
  (forall j v f, p (EvDeleteVol j v f) = false) ->
  count p (events (deleteVolTask bucket force index disk w)) = 0.
Proof.
  intros Hdel. destruct disk as [d|]; [|done].
  unfold deleteVolTask, call.
  destruct (DeleteVol d bucket force w) as [e w1]; simpl; by rewrite Hdel.
Qed.

Lemma deleteVolTask_backend_at i bucket force index disk w :
  count (is_backend_at i)
    (events (deleteVolTask bucket force index disk w)) =
  if bool_decide (index = i) && isLive disk then 1 else 0.
Proof.
  destruct disk as [d|]; simpl; [|by rewrite andb_false_r].
  unfold call. rewrite andb_true_r.
  destruct (DeleteVol d bucket force w) as [e w1]; simpl.
  by destruct (bool_decide _).
Qed.

(** The three fan-outs: size of the vector and entry of an absent slot. *)
Lemma makeVolFanout_vector storageDisks bucket w :
  let errs := val (makeVolFanout storageDisks bucket w) in
  length errs = length storageDisks /\
  (forall i, storageDisks !! i = Some None ->
     errs !! i = Some (Some errDiskNotFound)).
Proof.
  apply (fanout_vector
           (fun index disk => closure (makeVolTask bucket index disk))).
  done.
Qed.

Lemma statVolFanout_vector storageDisks bucket w :
  let errs := (val (statVolFanout storageDisks bucket w)).1 in
  length errs = length storageDisks /\
  (forall i, storageDisks !! i = Some None ->
     errs !! i = Some (Some errDiskNotFound)).
Proof.
  apply (fanout_vector (fun index disk => statVolTask bucket index disk)).
  done.
Qed.

Lemma deleteVolFanout_vector storageDisks bucket force w :
  let errs := val (deleteVolFanout storageDisks bucket force w) in
  length errs = length storageDisks /\
  (forall i, storageDisks !! i = Some None ->
     errs !! i = Some (Some errDiskNotFound)).
Proof.
  apply (fanout_vector
           (fun index disk => closure (deleteVolTask bucket force index disk))).
  done.
Qed.

(** Calls on the disk of slot [i] during each fan-out. *)
Lemma makeVolFanout_backend_at i storageDisks bucket w :
  count (is_backend_at i) (events (makeVolFanout storageDisks bucket w)) =
  if liveAt storageDisks i then 1 else 0.
Proof.
  unfold makeVolFanout, Wait. rewrite count_bind. simpl. rewrite Nat.add_0_r.
  apply (fanout_backend_at
           (fun index disk => closure (makeVolTask bucket index disk))).
  intros. rewrite events_closure. apply makeVolTask_backend_at.
Qed.

Lemma statVolFanout_backend_at i storageDisks bucket w :
  count (is_backend_at i) (events (statVolFanout storageDisks bucket w)) =
  if liveAt storageDisks i then 1 else 0.
Proof.
  unfold statVolFanout, Wait. rewrite !count_bind. simpl.
  rewrite !Nat.add_0_r.
  apply (fanout_backend_at (fun index disk => statVolTask bucket index disk)).
  intros. apply statVolTask_backend_at.
Qed.

Lemma deleteVolFanout_backend_at i storageDisks bucket force w :
  count (is_backend_at i)
    (events (deleteVolFanout storageDisks bucket force w)) =
  if liveAt storageDisks i then 1 else 0.
Proof.
  unfold deleteVolFanout, Wait. rewrite count_bind. simpl.
  rewrite Nat.add_0_r.
  apply (fanout_backend_at
           (fun index disk => closure (deleteVolTask bucket force index disk))).
  intros. rewrite events_closure. apply deleteVolTask_backend_at.
Qed.

(** C8.  In each of the three fan-outs (the create of MakeBucket, the stat
    of getBucketInfo, the delete of DeleteBucket) the result vector has
    exactly one entry per slot of the backend set, and an absent slot gets
    [errDiskNotFound] in its entry while no method of a disk is called for
    that slot. *)
Theorem fanout_absent_slot storageDisks bucket force w :
  let mk := makeVolFanout storageDisks bucket w in
  let st := statVolFanout storageDisks bucket w in
  let dl := deleteVolFanout storageDisks bucket force w in
  (length (val mk) = length storageDisks /\
   length (val st).1 = length storageDisks /\
   length (val dl) = length storageDisks) /\
  (forall i, storageDisks !! i = Some None ->
     (val mk !! i = Some (Some errDiskNotFound) /\
      count (is_backend_at i) (events mk) = 0) /\
     ((val st).1 !! i = Some (Some errDiskNotFound) /\
      count (is_backend_at i) (events st) = 0) /\
     (val dl !! i = Some (Some errDiskNotFound) /\
      count (is_backend_at i) (events dl) = 0)).
Proof.
  intros mk st dl.
  destruct (makeVolFanout_vector storageDisks bucket w) as [Hmk1 Hmk2].
  destruct (statVolFanout_vector storageDisks bucket w) as [Hst1 Hst2].
  destruct (deleteVolFanout_vector storageDisks bucket force w)
    as [Hdl1 Hdl2].
  split; [done|]. intros i Hi.
  assert (Hdead : liveAt storageDisks i = false)
    by (unfold liveAt; by rewrite Hi).
  subst mk st dl.
  rewrite makeVolFanout_backend_at, statVolFanout_backend_at,
    deleteVolFanout_backend_at, Hdead.
  auto.
Qed.
End FanoutFacts.

(** ** The rollback *)

Section Rollback.
Context {Disk World : Type} `{!StorageAPI Disk World}.
Implicit Types (storageDisks : list (option Disk)) (bucket : string).
Implicit Types (w : World) (disk : option Disk).

Lemma undoBody_events bucket index disk gl w :
  events (undoBody bucket index disk gl w) =
  match disk with Some _ => [EvMakeVol index bucket] | None => [] end.
Proof.
  destruct disk as [d|]; [|done]. unfold undoBody.
  rewrite events_Go, events_closure. unfold undoTask, bind, call, ret.
  by destruct (MakeVol d bucket w).
Qed.

Lemma undoBody_val bucket index disk gl w :
  val (undoBody bucket index disk gl w) = gl.
Proof.
  destruct disk as [d|]; [|done]. destruct gl as [g []].
  unfold undoBody, Go, closure, undoTask, bind, call, ret. simpl.
  by destruct (MakeVol d bucket w).
Qed.

(** The loop of the rollback calls [MakeVol] on the live slots, in order,
    and leaves the group as it was: every task returns nil. *)
Lemma undoLoop_spec bucket storageDisks start gl w :
  let r := forRange (undoBody bucket) start storageDisks gl w in
  events r = map (fun i => EvMakeVol i bucket) (liveIndices start storageDisks)
  /\ val r = gl.
Proof.
  revert start gl w.
  induction storageDisks as [|disk rest IH]; intros start gl w; [done|].
  cbv zeta. rewrite forRange_cons. cbv zeta. cbn [events val].
  rewrite undoBody_events, undoBody_val.
  destruct (IH (S start) gl (world (undoBody bucket start disk gl w)))
    as [-> ->].
  by destruct disk.
Qed.

Lemma undoFanout_events storageDisks bucket w :
  events (undoFanout storageDisks bucket w) =
  map (fun i => EvMakeVol i bucket) (liveIndices 0 storageDisks).
Proof.
  unfold undoFanout, Wait, bind, ret. cbn [events]. rewrite app_nil_r.
  apply (undoLoop_spec bucket storageDisks 0).
Qed.


Lemma undoDeleteBucket_events storageDisks bucket w :
  events (undoDeleteBucket storageDisks bucket w) =
  EvUndoDeleteBucket bucket
    :: map (fun i => EvMakeVol i bucket) (liveIndices 0 storageDisks).
Proof.
  unfold undoDeleteBucket, bind, emit, ret. cbn [events val world].
  rewrite app_nil_r. by rewrite undoFanout_events.
Qed.

Lemma count_makeVols p bucket (l : list nat) :
  (forall j v, p (EvMakeVol j v) = false) ->
  count p (map (fun i => EvMakeVol i bucket) l) = 0.
Proof.
  intros Hp. induction l as [|i l IH]; simpl; [done|]. by rewrite Hp, IH.
Qed.

(** What the rollback contributes to a count of calls. *)
Lemma undoDeleteBucket_count p storageDisks bucket w :
  (forall j v, p (EvMakeVol j v) = false) ->
  count p (events (undoDeleteBucket storageDisks bucket w)) =
  if p (EvUndoDeleteBucket bucket) then 1 else 0.
Proof.
  intros Hp. rewrite undoDeleteBucket_events. simpl.
  rewrite count_makeVols by done. lia.
Qed.

Lemma count_liveIndices p i bucket storageDisks start :
  (forall j v, p (EvMakeVol j v) = bool_decide (j = i)) ->
  count p (map (fun i => EvMakeVol i bucket) (liveIndices start storageDisks))
  = if bool_decide (start <= i) && liveAt storageDisks (i - start)
    then 1 else 0.
Proof.
  intros Hp. revert start.
  induction storageDisks as [|disk rest IH]; intros start.
  - unfold liveAt. rewrite lookup_nil. by rewrite andb_false_r.
  - assert (Hrest :
      count p (map (fun i => EvMakeVol i bucket) (liveIndices (S start) rest))
      = if bool_decide (start < i) && liveAt (disk :: rest) (i - start)
        then 1 else 0).
    { rewrite IH. destruct (decide (start < i)) as [Hlt|Hge].
      - rewrite !bool_decide_true by lia.
        replace (i - start) with (S (i - S start)) by lia. done.
      - rewrite !bool_decide_false by lia. done. }
    destruct disk as [d|]; simpl.
    + rewrite Hp. simpl in Hrest. rewrite Hrest.
      destruct (decide (start = i)) as [->|Hne].
      * rewrite bool_decide_true by done. rewrite Nat.sub_diag.
        rewrite (bool_decide_false (i < i)) by lia.
        rewrite bool_decide_true by lia. done.
      * rewrite (bool_decide_false (start = i)) by done.
        destruct (decide (start < i)).
        -- rewrite !bool_decide_true by lia. done.
        -- rewrite !bool_decide_false by lia. done.
    + simpl in Hrest. rewrite Hrest.
      destruct (decide (start = i)) as [->|Hne].
      * rewrite (bool_decide_false (i < i)) by lia.
        rewrite Nat.sub_diag. unfold liveAt. simpl.
        by rewrite andb_false_r.
      * destruct (decide (start < i)).
        -- rewrite !bool_decide_true by lia. done.
        -- rewrite !bool_decide_false by lia. done.
Qed.

End Rollback.

(** ** DeleteBucket and MakeBucketWithLocation *)

Section Workflows.
Context {Disk World : Type} `{!StorageAPI Disk World}.
Variable env : Env World.
Implicit Types (storageDisks : list (option Disk)) (bucket : string).
Implicit Types (w : World) (dErrs : list (option error)).

Lemma deleteVolFanout_count p storageDisks bucket force w :
  (forall j v f, p (EvDeleteVol j v f) = false) ->
  count p (events (deleteVolFanout storageDisks bucket force w)) = 0.
Proof.
  intros Hp. unfold deleteVolFanout, Wait. rewrite count_bind. simpl.
  rewrite Nat.add_0_r. apply forRange_count_none.
  intros i x l w1. rewrite events_Go, events_closure.
  by apply deleteVolTask_events.
Qed.

(** An entry of the delete vector other than [errDiskNotFound] comes from a
    live slot. *)
Lemma deleteVolFanout_live storageDisks bucket force w i e :
  val (deleteVolFanout storageDisks bucket force w) !! i = Some (Some e) ->
  e <> errDiskNotFound ->
  liveAt storageDisks i = true.
Proof.
  intros Hi Hne.
  destruct (deleteVolFanout_vector storageDisks bucket force w)
    as [Hlen Habs].
  assert (Hlt : i < length storageDisks).
  { rewrite <- Hlen. by eapply lookup_lt_Some. }
  destruct (lookup_lt_is_Some_2 _ _ Hlt) as [disk Hdisk].
  unfold liveAt. rewrite Hdisk. destruct disk as [d|]; [done|].
  rewrite (Habs i Hdisk) in Hi. congruence.
Qed.

Lemma callMustGetUUID_events w : events (callMustGetUUID env w) = [].
Proof. unfold callMustGetUUID. by destruct (mustGetUUID env w). Qed.

(** The entry of slot [i] in a vector whose first entry is that of slot
    [index]: either the first entry or one of the rest. *)
Lemma at_slot_cons (x : option error) (rest : list (option error))
    (t : option error) (index i : nat) (live : bool) :
  (if bool_decide (index <= i)
      && bool_decide ((x :: rest) !! (i - index) = Some t) && live
   then 1 else 0) =
  (if bool_decide (index = i) && bool_decide (x = t) && live then 1 else 0)
  + (if bool_decide (S index <= i)
        && bool_decide (rest !! (i - S index) = Some t) && live
     then 1 else 0).
Proof.
  destruct (decide (index = i)) as [->|Hne].
  - rewrite Nat.sub_diag. change ((x :: rest) !! 0) with (Some x).
    rewrite (bool_decide_true (i <= i)), (bool_decide_true (i = i)) by lia.
    rewrite (bool_decide_false (S i <= i)) by lia.
    destruct (decide (x = t)) as [->|Hx].
    + rewrite !bool_decide_true by done. simpl. lia.
    + rewrite (bool_decide_false (Some x = Some t)) by congruence.
      rewrite (bool_decide_false (x = t)) by done. done.
  - rewrite (bool_decide_false (index = i)) by done.
    destruct (decide (index <= i)) as [Hle|Hgt].
    + rewrite (bool_decide_true (index <= i)) by lia.
      rewrite (bool_decide_true (S index <= i)) by lia.
      replace (i - index) with (S (i - S index)) by lia. done.
    + rewrite (bool_decide_false (index <= i)) by lia.
      rewrite (bool_decide_false (S index <= i)) by lia. done.
Qed.

(** The loop of lines 180-185: which slots are relocated, and the flag. *)
Lemma purgeLoop_spec storageDisks bucket dErrs :
  forall index purged w,
    let r := purgeLoop env storageDisks bucket index dErrs purged w in
    count is_relocate (events r) = notEmptyLive storageDisks index dErrs /\
    val r = purged || (0 <? notEmptyLive storageDisks index dErrs)%nat /\
    (forall i, count (is_relocate_at i) (events r) =
       if bool_decide (index <= i)
          && bool_decide (dErrs !! (i - index) = Some (Some errVolumeNotEmpty))
          && liveAt storageDisks i
       then 1 else 0) /\
    (forall p, (forall j a b c d, p (EvRenameFile j a b c d) = false) ->
       count p (events r) = 0).
Proof.
  induction dErrs as [|err rest IH]; intros index purged w; cbv zeta.
  - simpl. rewrite orb_false_r. repeat split; try done.
    intros i. by rewrite andb_false_r.
  - assert (Hskip :
      bool_decide (err = Some errVolumeNotEmpty) && liveAt storageDisks index
        = false ->
      let r0 := purgeLoop env storageDisks bucket (S index) rest purged w in
      count is_relocate (events r0)
        = notEmptyLive storageDisks index (err :: rest) /\
      val r0 = purged
               || (0 <? notEmptyLive storageDisks index (err :: rest))%nat /\
      (forall i, count (is_relocate_at i) (events r0) =
         if bool_decide (index <= i)
            && bool_decide ((err :: rest) !! (i - index)
                            = Some (Some errVolumeNotEmpty))
            && liveAt storageDisks i
         then 1 else 0) /\
      (forall p, (forall j a b c d, p (EvRenameFile j a b c d) = false) ->
         count p (events r0) = 0)).
    { intros Hoff r0. subst r0.
      destruct (IH (S index) purged w) as (Hc & Hv & Hat & Hp).
      cbn [notEmptyLive]. rewrite Hoff. repeat split; try done.
      intros i. rewrite Hat, at_slot_cons.
      destruct (decide (index = i)) as [->|Hne].
      - rewrite (bool_decide_true (i = i)) by done.
        rewrite andb_true_l, Hoff. done.
      - rewrite (bool_decide_false (index = i)) by done. done. }
    cbn [purgeLoop].
    destruct (bool_decide (err = Some errVolumeNotEmpty)) eqn:Hne;
      [|by apply Hskip].
    destruct (storageDisks !! index) as [[d|]|] eqn:Hdisk;
      [|apply Hskip; unfold liveAt; rewrite Hdisk; apply andb_false_r..].
    clear Hskip. apply bool_decide_eq_true in Hne as ->.
    set (w1 := world (callMustGetUUID env w)).
    set (uuid := val (callMustGetUUID env w)).
    set (ev := EvRenameFile index bucket "" (minioMetaTmpDeletedBucket env) uuid).
    set (rn := RenameFile d bucket "" (minioMetaTmpDeletedBucket env) uuid w1).
    destruct (IH (S index) true rn.2) as (Hc & Hv & Hat & Hp).
    set (r := bind _ _ w).
    assert (Hev : forall p,
      count p (events r)
      = (if p ev then 1 else 0)
        + count p (events (purgeLoop env storageDisks bucket (S index) rest
                             true rn.2))).
    { intros p. subst r.
      rewrite !count_bind, callMustGetUUID_events, events_call, world_call.
      subst ev rn w1 uuid. simpl. lia. }
    assert (Hval :
      val r = val (purgeLoop env storageDisks bucket (S index) rest true rn.2)).
    { subst r. unfold bind. cbn [val world]. by rewrite world_call. }
    assert (Hlive : liveAt storageDisks index = true)
      by (unfold liveAt; by rewrite Hdisk).
    cbn [notEmptyLive]. rewrite bool_decide_true by done. rewrite Hlive.
    repeat split.
    + rewrite Hev, Hc. done.
    + rewrite Hval, Hv. simpl. by rewrite orb_true_r.
    + intros i. rewrite Hev, Hat, at_slot_cons. unfold ev. cbn [is_relocate_at].
      rewrite (bool_decide_true (Some errVolumeNotEmpty = _)) by done.
      destruct (decide (index = i)) as [->|Hni].
      * rewrite (bool_decide_true (i = i)) by done. by rewrite Hlive.
      * rewrite (bool_decide_false (index = i)) by done. done.
    + intros p Hpr. rewrite Hev, Hp by done. unfold ev. by rewrite Hpr.
Qed.

Lemma occurrences_cons e err dErrs :
  occurrences e (err :: dErrs) =
  (if bool_decide (err = Some e) then 1 else 0) + occurrences e dErrs.
Proof. unfold occurrences. simpl. by destruct (bool_decide _). Qed.

Lemma occurrences_lookup e dErrs i :
  dErrs !! i = Some (Some e) -> 1 <= occurrences e dErrs.
Proof.
  revert i. induction dErrs as [|err rest IH]; intros i Hi.
  - by rewrite lookup_nil in Hi.
  - rewrite occurrences_cons. destruct i as [|i]; simpl in Hi.
    + injection Hi as ->. rewrite bool_decide_true by done. lia.
    + specialize (IH i Hi). lia.
Qed.

(** When the slots holding [errVolumeNotEmpty] are live, the test of line
    181 counts the entries holding [errVolumeNotEmpty]. *)
Lemma notEmptyLive_occurrences storageDisks dErrs :
  forall index,
    (forall k, dErrs !! k = Some (Some errVolumeNotEmpty) ->
       liveAt storageDisks (index + k) = true) ->
    notEmptyLive storageDisks index dErrs
    = occurrences errVolumeNotEmpty dErrs.
Proof.
  induction dErrs as [|err rest IH]; intros index Hlive; [done|].
  cbn [notEmptyLive]. rewrite occurrences_cons, (IH (S index)).
  - destruct (decide (err = Some errVolumeNotEmpty)) as [->|Hne].
    + rewrite bool_decide_true by done.
      specialize (Hlive 0 eq_refl). rewrite Nat.add_0_r in Hlive.
      by rewrite Hlive.
    + by rewrite bool_decide_false by done.
  - intros k Hk. replace (S index + k) with (index + S k) by lia.
    by apply Hlive.
Qed.

(** The run of [DeleteBucket] without [Force], phase by phase: the delete
    fan-out, the reduction, the rollback if line 172 asks for it, the loop
    over the slots if line 176 does, and the deferred [NSUpdated]. *)
Lemma DeleteBucket_quorum er bucket noRecreate w :
  let storageDisks := getDisks er in
  let opts := {| Force := false; NoRecreate := noRecreate |} in
  let fan := deleteVolFanout storageDisks bucket false w in
  let dErrs := val fan in
  let writeQuorum := getWriteQuorum env (length storageDisks) in
  let err := reduceWriteQuorumErrs env dErrs (bucketOpIgnoredErrs env)
               writeQuorum in
  let undo := undoDeleteBucket storageDisks bucket (world fan) in
  let w1 := if rollsBack err opts then world undo else world fan in
  let purge := purgeLoop env storageDisks bucket 0 dErrs false w1 in
  let r := DeleteBucket env er bucket opts w in
  val r = toObjectErr env
            (if inspectsSlots err then if val purge then None else err
             else err) bucket /\
  events r =
    events fan
    ++ [EvReduceWriteQuorumErrs dErrs (bucketOpIgnoredErrs env) writeQuorum]
    ++ (if rollsBack err opts then events undo else [])
    ++ (if inspectsSlots err then events purge else [])
    ++ [EvNSUpdated bucket slashSeparator].
Proof.
  intros storageDisks opts fan dErrs writeQuorum err undo w1 purge r.
  subst r w1 purge undo. unfold DeleteBucket, deferNSUpdated.
  cbn [Force NoRecreate opts]. fold storageDisks.
  unfold callReduceWriteQuorumErrs. unfold rollsBack, inspectsSlots.
  cbn [NoRecreate opts].
  unfold bind, emit, ret. cbn [val world events].
  fold fan dErrs writeQuorum err.
  destruct (bool_decide (err = Some errErasureWriteQuorum) && negb noRecreate);
    destruct (bool_decide (err = None) || errors_Is err errVolumeNotFound);
    cbn [val world events]; rewrite ?app_nil_r; cbn [app];
    (split; [done|]); by simplify_list_eq.
Qed.

(** The same, as a count of the calls of a kind [p]. *)
Lemma DeleteBucket_quorum_count p er bucket noRecreate w :
  let storageDisks := getDisks er in
  let opts := {| Force := false; NoRecreate := noRecreate |} in
  let fan := deleteVolFanout storageDisks bucket false w in
  let dErrs := val fan in
  let writeQuorum := getWriteQuorum env (length storageDisks) in
  let err := reduceWriteQuorumErrs env dErrs (bucketOpIgnoredErrs env)
               writeQuorum in
  (forall j v f, p (EvDeleteVol j v f) = false) ->
  (forall j v, p (EvMakeVol j v) = false) ->
  (forall b s, p (EvNSUpdated b s) = false) ->
  count p (events (DeleteBucket env er bucket opts w)) =
  (if p (EvReduceWriteQuorumErrs dErrs (bucketOpIgnoredErrs env) writeQuorum)
   then 1 else 0)
  + (if rollsBack err opts && p (EvUndoDeleteBucket bucket) then 1 else 0)
  + (if inspectsSlots err
     then count p (events (purgeLoop env storageDisks bucket 0 dErrs false
                             (if rollsBack err opts
                              then world (undoDeleteBucket storageDisks bucket
                                            (world fan))
                              else world fan)))
     else 0).
Proof.
  intros storageDisks opts fan dErrs writeQuorum err Hdel Hmk Hns.
  destruct (DeleteBucket_quorum er bucket noRecreate w) as [_ Hev].
  cbv zeta in Hev. fold storageDisks opts in Hev. rewrite Hev. clear Hev.
  fold fan dErrs writeQuorum err.
  rewrite !count_app. subst fan.
  rewrite deleteVolFanout_count by done. cbn [count]. rewrite Hns.
  destruct (rollsBack err opts).
  - rewrite undoDeleteBucket_count by done. cbn [andb].
    destruct (inspectsSlots err); cbn [count]; lia.
  - cbn [andb count]. destruct (inspectsSlots err); cbn [count]; lia.
Qed.

(** What [DeleteBucket] without [Force] returns and which slots it
    relocates, in terms of the delete vector and of its reduction. *)
Lemma DeleteBucket_relocates er bucket noRecreate w :
  let storageDisks := getDisks er in
  let dErrs := val (deleteVolFanout storageDisks bucket false w) in
  let err := reduceWriteQuorumErrs env dErrs (bucketOpIgnoredErrs env)
               (getWriteQuorum env (length storageDisks)) in
  let r := DeleteBucket env er bucket
             {| Force := false; NoRecreate := noRecreate |} w in
  let k := occurrences errVolumeNotEmpty dErrs in
  val r = toObjectErr env
            (if inspectsSlots err && (0 <? k)%nat then None else err) bucket /\
  count is_relocate (events r) = (if inspectsSlots err then k else 0) /\
  (forall i,
     count (is_relocate_at i) (events r) =
     if inspectsSlots err
        && bool_decide (dErrs !! i = Some (Some errVolumeNotEmpty))
     then 1 else 0).
Proof.
  intros storageDisks dErrs err r k.
  set (opts := {| Force := false; NoRecreate := noRecreate |}) in *.
  set (w1 := if rollsBack err opts
             then world (undoDeleteBucket storageDisks bucket
                           (world (deleteVolFanout storageDisks bucket false w)))
             else world (deleteVolFanout storageDisks bucket false w)).
  destruct (purgeLoop_spec storageDisks bucket dErrs 0 false w1)
    as (Hc & Hv & Hat & _).
  assert (Hlive : forall i, dErrs !! i = Some (Some errVolumeNotEmpty) ->
                            liveAt storageDisks i = true).
  { intros i Hi. by eapply deleteVolFanout_live. }
  rewrite (notEmptyLive_occurrences storageDisks dErrs 0) in Hc, Hv
    by (intros i Hi; by apply Hlive).
  fold k in Hc, Hv. split; [|split].
  - destruct (DeleteBucket_quorum er bucket noRecreate w) as [Hval _].
    cbv zeta in Hval. fold storageDisks opts dErrs err w1 in Hval.
    subst r. rewrite Hval, Hv. cbn [orb].
    by destruct (inspectsSlots err), (0 <? k)%nat.
  - subst r. unfold opts.
    rewrite (DeleteBucket_quorum_count is_relocate) by done.
    fold storageDisks opts dErrs err w1. cbn [is_relocate].
    rewrite andb_false_r, Hc. by destruct (inspectsSlots err).
  - intros i. subst r. unfold opts.
    rewrite (DeleteBucket_quorum_count (is_relocate_at i)) by done.
    fold storageDisks opts dErrs err w1. cbn [is_relocate_at].
    rewrite andb_false_r, Hat, Nat.sub_0_r.
    rewrite (bool_decide_true (0 <= i)) by lia. cbn [andb].
    destruct (inspectsSlots err); [|done]. cbn [andb].
    destruct (decide (dErrs !! i = Some (Some errVolumeNotEmpty))) as [Hi|Hi].
    + rewrite bool_decide_true by done. by rewrite (Hlive i Hi).
    + by rewrite bool_decide_false by done.
Qed.

(** C3.  In a [DeleteBucket] without [Force] the rollback
    ([undoDeleteBucket]) is entered exactly once when the write-quorum
    reduction of the delete errors is [errErasureWriteQuorum] and
    [NoRecreate] is false, and not at all otherwise: never when
    [NoRecreate] is true, never when the reduction gives anything else. *)
Theorem DeleteBucket_rollback_iff er bucket noRecreate w :
  let storageDisks := getDisks er in
  let dErrs := val (deleteVolFanout storageDisks bucket false w) in
  let err := reduceWriteQuorumErrs env dErrs (bucketOpIgnoredErrs env)
               (getWriteQuorum env (length storageDisks)) in
  count is_undo
    (events (DeleteBucket env er bucket
               {| Force := false; NoRecreate := noRecreate |} w)) =
  if bool_decide (err = Some errErasureWriteQuorum) && negb noRecreate
  then 1 else 0.
Proof.
  intros storageDisks dErrs err.
  rewrite (DeleteBucket_quorum_count is_undo) by done.
  fold storageDisks dErrs err. cbn [is_undo]. rewrite andb_true_r.
  unfold rollsBack at 1. cbn [NoRecreate].
  destruct (inspectsSlots err); [|lia].
  match goal with
  | |- context [purgeLoop env storageDisks bucket 0 dErrs false ?w1] =>
      destruct (purgeLoop_spec storageDisks bucket dErrs 0 false w1)
        as (_ & _ & _ & Hnone)
  end.
  rewrite Hnone by done. lia.
Qed.



(** C10.  In a [DeleteBucket] without [Force] what [RenameFile] returns is
    dropped: whenever the slots are inspected (the reduction returned nil or
    an error that is [errVolumeNotFound]) and at least one slot reported
    [errVolumeNotEmpty], the delete returns success, for every behaviour of
    the disks and so whether the relocate calls fail or not. *)
Theorem DeleteBucket_relocate_result_dropped er bucket noRecreate w i :
  let storageDisks := getDisks er in
  let dErrs := val (deleteVolFanout storageDisks bucket false w) in
  let err := reduceWriteQuorumErrs env dErrs (bucketOpIgnoredErrs env)
               (getWriteQuorum env (length storageDisks)) in
  let r := DeleteBucket env er bucket
             {| Force := false; NoRecreate := noRecreate |} w in
  err = None \/ errors_Is err errVolumeNotFound = true ->
  dErrs !! i = Some (Some errVolumeNotEmpty) ->
  val r = None /\ count (is_relocate_at i) (events r) = 1.
Proof.
  intros storageDisks dErrs err r Herr Hi.
  destruct (DeleteBucket_relocates er bucket noRecreate w)
    as (Hval & _ & Hat).
  fold storageDisks dErrs err r in Hval, Hat.
  assert (Hins : inspectsSlots err = true).
  { unfold inspectsSlots. destruct Herr as [->| ->]; [done|].
    by rewrite orb_true_r. }
  pose proof (occurrences_lookup _ _ _ Hi) as Hpos.
  split.
  - rewrite Hval, Hins. cbn [andb].
    destruct (Nat.ltb_spec 0 (occurrences errVolumeNotEmpty dErrs));
      [done|lia].
  - rewrite Hat, Hins. by rewrite bool_decide_true by done.
Qed.

(** *** Force mode *)

Lemma firstErr_all_nil dErrs :
  Forall (fun err => err = None) dErrs -> firstErr dErrs = None.
Proof. induction 1 as [|err rest -> _ IH]; [done|]. done. Qed.

Lemma firstErr_first dErrs i e :
  dErrs !! i = Some (Some e) ->
  (forall j, j < i -> dErrs !! j = Some None) ->
  firstErr dErrs = Some e.
Proof.
  revert i. induction dErrs as [|err rest IH]; intros i Hi Hbefore.
  - by rewrite lookup_nil in Hi.
  - destruct i as [|i].
    + simpl in Hi. by injection Hi as ->.
    + pose proof (Hbefore 0 ltac:(lia)) as H0. simpl in H0.
      injection H0 as ->. simpl. apply (IH i); [done|].
      intros j Hj. apply (Hbefore (S j)). lia.
Qed.

Lemma firstErr_some dErrs i e :
  dErrs !! i = Some (Some e) ->
  exists i' e', dErrs !! i' = Some (Some e') /\ firstErr dErrs = Some e'.
Proof.
  revert i. induction dErrs as [|err rest IH]; intros i Hi.
  - by rewrite lookup_nil in Hi.
  - destruct err as [e0|].
    + by exists 0, e0.
    + destruct i as [|i]; [done|]. simpl in Hi.
      destruct (IH i Hi) as (i' & e' & Hi' & Hf). by exists (S i'), e'.
Qed.

(** The loop of the force mode stops at the first error: it rolls back once
    and returns the translation of that error; without an error it does
    nothing and returns nil. *)
Lemma forceLoop_spec storageDisks bucket dErrs w :
  let r := forceLoop env storageDisks bucket dErrs w in
  val r = toObjectErr env (firstErr dErrs) bucket /\
  events r = match firstErr dErrs with
             | Some _ => events (undoDeleteBucket storageDisks bucket w)
             | None => []
             end.
Proof.
  induction dErrs as [|[e|] rest IH]; cbv zeta; [done| |done].
  cbn [forceLoop firstErr]. unfold bind, ret. cbn [val events].
  by rewrite app_nil_r.
Qed.

Lemma DeleteBucket_force er bucket noRecreate w :
  let storageDisks := getDisks er in
  let fan := deleteVolFanout storageDisks bucket true w in
  let r := DeleteBucket env er bucket
             {| Force := true; NoRecreate := noRecreate |} w in
  val r = toObjectErr env (firstErr (val fan)) bucket /\
  (forall p,
     (forall j v f, p (EvDeleteVol j v f) = false) ->
     (forall j v, p (EvMakeVol j v) = false) ->
     (forall b s, p (EvNSUpdated b s) = false) ->
     count p (events r) =
     match firstErr (val fan) with
     | Some _ => if p (EvUndoDeleteBucket bucket) then 1 else 0
     | None => 0
     end).
Proof.
  intros storageDisks fan r. subst r.
  unfold DeleteBucket, deferNSUpdated. cbn [Force]. fold storageDisks.
  destruct (forceLoop_spec storageDisks bucket (val fan) (world fan))
    as [Hval Hev].
  split.
  - unfold bind, emit, ret. cbn [val world]. fold fan. done.
  - intros p Hdel Hmk Hns. rewrite !count_bind. fold fan.
    unfold fan at 1. rewrite deleteVolFanout_count by done.
    unfold emit, ret. cbn [val world events count]. rewrite Hev, Hns.
    destruct (firstErr (val fan)); cbn [count]; [|lia].
    rewrite undoDeleteBucket_count by done. lia.
Qed.

(** C4.  In a [DeleteBucket] with [Force] no quorum reduction is made.  If
    every slot's result is nil, the delete returns success and there is no
    rollback.  If some slot's result is an error, the rollback is entered
    (once) and a slot's error is returned, translated: the error of the
    first failing slot, hence the error of the one failing slot when all the
    other slots succeeded. *)
Theorem DeleteBucket_force_all_or_nothing er bucket noRecreate w :
  let storageDisks := getDisks er in
  let dErrs := val (deleteVolFanout storageDisks bucket true w) in
  let r := DeleteBucket env er bucket
             {| Force := true; NoRecreate := noRecreate |} w in
  count is_reduce (events r) = 0 /\
  (Forall (fun err => err = None) dErrs ->
     val r = None /\ count is_undo (events r) = 0) /\
  (forall i e,
     dErrs !! i = Some (Some e) ->
     count is_undo (events r) = 1 /\
     exists i' e', dErrs !! i' = Some (Some e') /\
                   val r = Some (objectErrOf env e' bucket)) /\
  (forall i e,
     dErrs !! i = Some (Some e) ->
     (forall j, j < i -> dErrs !! j = Some None) ->
     val r = Some (objectErrOf env e bucket) /\
     count is_undo (events r) = 1).
Proof.
  intros storageDisks dErrs r.
  destruct (DeleteBucket_force er bucket noRecreate w) as [Hval Hcount].
  fold storageDisks dErrs r in Hval, Hcount.
  pose proof (Hcount is_reduce ltac:(done) ltac:(done) ltac:(done)) as Hred.
  pose proof (Hcount is_undo ltac:(done) ltac:(done) ltac:(done)) as Hundo.
  cbn [is_reduce is_undo] in Hred, Hundo.
  split; [|split; [|split]].
  - rewrite Hred. by destruct (firstErr dErrs).
  - intros Hall. rewrite Hval, Hundo, (firstErr_all_nil dErrs Hall). done.
  - intros i e Hi. destruct (firstErr_some dErrs i e Hi) as (i' & e' & Hi' & Hf).
    rewrite Hundo, Hval, Hf. split; [done|]. by exists i', e'.
  - intros i e Hi Hbefore.
    rewrite Hundo, Hval, (firstErr_first dErrs i e Hi Hbefore). done.
Qed.

(** *** The errors ignored by the reductions *)

Lemma makeVolFanout_count p storageDisks bucket w :
  (forall j v, p (EvMakeVol j v) = false) ->
  (forall e, p (EvLogIf e) = false) ->
  count p (events (makeVolFanout storageDisks bucket w)) = 0.
Proof.
  intros Hmk Hlog. unfold makeVolFanout, Wait. rewrite count_bind. simpl.
  rewrite Nat.add_0_r. apply forRange_count_none.
  intros i x l w1. rewrite events_Go, events_closure.
  by apply makeVolTask_events.
Qed.

Lemma MakeBucketWithLocation_valid er bucket opts w :
  let storageDisks := getDisks er in
  let fan := makeVolFanout storageDisks bucket w in
  let writeQuorum := getWriteQuorum env (length storageDisks) in
  let r := MakeBucketWithLocation env er bucket opts w in
  CheckValidBucketNameStrict env bucket = None ->
  val r = toObjectErr env
            (reduceWriteQuorumErrs env (val fan) (bucketOpIgnoredErrs env)
               writeQuorum) bucket /\
  events r =
    events fan
    ++ [EvReduceWriteQuorumErrs (val fan) (bucketOpIgnoredErrs env)
          writeQuorum;
        EvNSUpdated bucket slashSeparator].
Proof.
  intros storageDisks fan writeQuorum r Hvalid. subst r.
  unfold MakeBucketWithLocation, deferNSUpdated. rewrite Hvalid.
  fold storageDisks. unfold callReduceWriteQuorumErrs, bind, emit, ret.
  cbn [val world events]. fold fan writeQuorum. split; [done|].
  by simplify_list_eq.
Qed.

(** C6, as the code has it.  [bucketMetadataOpIgnoredErrs] extends
    [bucketOpIgnoredErrs] with [errVolumeNotFound], but it is not the list
    the reductions of [MakeBucketWithLocation] and [DeleteBucket] ignore:
    each makes one reduction, with [bucketOpIgnoredErrs], the base list
    extended with [errDiskAccessDenied] and [errUnformattedDisk], which
    holds [errVolumeNotFound] only if the base list does. *)
Theorem reductions_ignore_bucketOpIgnoredErrs er bucket opts noRecreate w :
  let mk := MakeBucketWithLocation env er bucket opts w in
  let dl := DeleteBucket env er bucket
              {| Force := false; NoRecreate := noRecreate |} w in
  bucketMetadataOpIgnoredErrs env
    = bucketOpIgnoredErrs env ++ [errVolumeNotFound] /\
  bucketOpIgnoredErrs env
    = baseIgnoredErrs env ++ [errDiskAccessDenied; errUnformattedDisk] /\
  (errVolumeNotFound ∈ bucketOpIgnoredErrs env <->
   errVolumeNotFound ∈ baseIgnoredErrs env) /\
  (count is_reduce (events dl) = 1 /\
   count (is_reduce_ignoring (bucketOpIgnoredErrs env)) (events dl) = 1) /\
  (CheckValidBucketNameStrict env bucket = None ->
   count is_reduce (events mk) = 1 /\
   count (is_reduce_ignoring (bucketOpIgnoredErrs env)) (events mk) = 1).
Proof.
  intros mk dl. split; [done|]. split; [done|]. split; [|split].
  - unfold bucketOpIgnoredErrs. rewrite elem_of_app. split; [|by left].
    intros [Hin|Hin]; [done|].
    apply elem_of_cons in Hin as [Hin|Hin]; [done|].
    apply elem_of_cons in Hin as [Hin|Hin]; [done|].
    by apply elem_of_nil in Hin.
  - subst dl.
    rewrite (DeleteBucket_quorum_count is_reduce),
      (DeleteBucket_quorum_count
         (is_reduce_ignoring (bucketOpIgnoredErrs env))) by done.
    cbn [is_reduce is_reduce_ignoring]. rewrite !andb_false_r.
    rewrite bool_decide_true by done.
    assert (Hpurge : forall p w1,
      (forall j a b c d, p (EvRenameFile j a b c d) = false) ->
      (if inspectsSlots
            (reduceWriteQuorumErrs env
               (val (deleteVolFanout (getDisks er) bucket false w))
               (bucketOpIgnoredErrs env)
               (getWriteQuorum env (length (getDisks er))))
       then count p (events (purgeLoop env (getDisks er) bucket 0
                               (val (deleteVolFanout (getDisks er) bucket
                                       false w)) false w1))
       else 0) = 0).
    { intros p w1 Hp. destruct (inspectsSlots _); [|done].
      destruct (purgeLoop_spec (getDisks er) bucket
                  (val (deleteVolFanout (getDisks er) bucket false w))
                  0 false w1) as (_ & _ & _ & Hnone).
      by apply Hnone. }
    rewrite !Hpurge by done. done.
  - intros Hvalid. subst mk.
    destruct (MakeBucketWithLocation_valid er bucket opts w Hvalid)
      as [_ ->].
    rewrite !count_app, !makeVolFanout_count by done.
    cbn [count is_reduce is_reduce_ignoring].
    by rewrite bool_decide_true by done.
Qed.

(** C9.  When the name fails the validation, [MakeBucketWithLocation]
    returns [BucketNameInvalid] for that name, calls no method of any disk
    and makes no quorum reduction: nothing but the deferred [NSUpdated]
    runs, and the backends stay as they were. *)
Theorem MakeBucketWithLocation_invalid_name er bucket opts w e :
  let r := MakeBucketWithLocation env er bucket opts w in
  CheckValidBucketNameStrict env bucket = Some e ->
  val r = Some (BucketNameInvalid bucket) /\
  events r = [EvNSUpdated bucket slashSeparator] /\
  count is_backend (events r) = 0 /\
  count is_reduce (events r) = 0 /\
  world r = w.
Proof.
  intros r Hbad. subst r. unfold MakeBucketWithLocation, deferNSUpdated.
  rewrite Hbad. done.
Qed.
End Workflows.

(** ** getBucketInfo *)

Section Stat.
Context {Disk World : Type} `{!StorageAPI Disk World}.
Implicit Types (storageDisks : list (option Disk)) (bucketName : string).
Implicit Types (w : World) (errs : list (option error)).
Implicit Types (bucketsInfo : list BucketInfo).

(** The loop over [errs] returns from its first nil entry, with the entry
    of [bucketsInfo] at the same index. *)
Lemma firstSuccess_first errs bucketsInfo :
  forall start i,
    errs !! i = Some None ->
    (forall j, j < i -> errs !! j <> Some None) ->
    firstSuccess start errs bucketsInfo =
    Some (default BucketInfo_zero (bucketsInfo !! (start + i))).
Proof.
  induction errs as [|err rest IH]; intros start i Hi Hbefore.
  - by rewrite lookup_nil in Hi.
  - destruct i as [|i].
    + simpl in Hi. injection Hi as ->. simpl. by rewrite Nat.add_0_r.
    + destruct err as [e|].
      * simpl. rewrite (IH (S start) i); [|done|].
        -- by replace (S start + i) with (start + S i) by lia.
        -- intros j Hj. apply (Hbefore (S j)). lia.
      * by destruct (Hbefore 0 ltac:(lia)).
Qed.

(** One step of the stat fan-out, by cases on the slot and on what
    [StatVol] answers. *)
Lemma statVol_step bucketName index disk g bucketsInfo w :
  let r := val (Go (statVolTask bucketName index disk) index
                  (g, bucketsInfo) w) in
  (disk = None /\
   errs r.1 = <[index := Some errDiskNotFound]> (errs g) /\
   r.2 = bucketsInfo) \/
  (exists d e, disk = Some d /\ (StatVol d bucketName w).1.2 = Some e /\
     errs r.1 = <[index := Some e]> (errs g) /\ r.2 = bucketsInfo) \/
  (exists d, disk = Some d /\ (StatVol d bucketName w).1.2 = None /\
     errs r.1 = errs g /\
     r.2 = <[index := BucketInfo_of (StatVol d bucketName w).1.1]> bucketsInfo).
Proof.
  cbv zeta. destruct disk as [d|]; [|by left]. right.
  unfold Go, statVolTask, bind, ret. cbn [val world fst snd].
  rewrite val_call.
  destruct (StatVol d bucketName w) as [[v [e|]] w1] eqn:Est;
    cbn [fst snd val].
  - left. exists d, e. by rewrite Est.
  - right. exists d. by rewrite Est.
Qed.

(** The loop of the stat fan-out: a slot that was nil and is nil at the end
    is a live slot whose [StatVol] succeeded, and [bucketsInfo] holds at its
    index the information [StatVol] returned. *)
Lemma statLoop_spec bucketName storageDisks :
  forall start g bucketsInfo w,
    let r := val (forRange
                    (fun index disk => Go (statVolTask bucketName index disk) index)
                    start storageDisks (g, bucketsInfo) w) in
    length (errs g) = length bucketsInfo ->
    length r.2 = length bucketsInfo /\
    (forall i, i < start ->
       errs r.1 !! i = errs g !! i /\ r.2 !! i = bucketsInfo !! i) /\
    (forall k, k < length storageDisks -> start + k < length bucketsInfo ->
       errs g !! (start + k) = Some None ->
       errs r.1 !! (start + k) = Some None ->
       exists d w', storageDisks !! k = Some (Some d) /\
         (StatVol d bucketName w').1.2 = None /\
         r.2 !! (start + k) =
           Some (BucketInfo_of (StatVol d bucketName w').1.1)).
Proof.
  induction storageDisks as [|disk rest IH];
    intros start g bucketsInfo w; cbv zeta; intros Hlen.
  - split; [done|]. split; [done|]. intros k Hk. simpl in Hk. lia.
  - rewrite forRange_cons. cbv zeta. cbn [val].
    pose proof (statVol_step bucketName start disk g bucketsInfo w) as Hstep.
    cbv zeta in Hstep.
    set (r1 := Go (statVolTask bucketName start disk) start (g, bucketsInfo) w)
      in *.
    destruct (val r1) as [g1 bis1] eqn:Er1. cbn [fst snd] in Hstep.
    assert (Hlen1 : length (errs g1) = length bis1 /\
                    length bis1 = length bucketsInfo).
    { destruct Hstep as [(_ & -> & ->)|[(d & e & _ & _ & -> & ->)
                                       |(d & _ & _ & -> & ->)]];
        rewrite ?length_insert; by split. }
    destruct Hlen1 as [Hlen1 Hlen2].
    assert (Hother : forall i, i <> start ->
              errs g1 !! i = errs g !! i /\ bis1 !! i = bucketsInfo !! i).
    { intros i Hi.
      destruct Hstep as [(_ & -> & ->)|[(d & e & _ & _ & -> & ->)
                                       |(d & _ & _ & -> & ->)]];
        rewrite ?list_lookup_insert_ne by done; by split. }
    destruct (IH (S start) g1 bis1 (world r1) Hlen1)
      as (Hl & Hbefore & Hslot).
    split; [congruence|]. split.
    + intros i Hi. destruct (Hbefore i ltac:(lia)) as [-> ->].
      apply Hother. lia.
    + intros [|k] Hk Hin Hnil Hend.
      * rewrite Nat.add_0_r in *.
        destruct (Hbefore start ltac:(lia)) as [He Hb].
        rewrite He in Hend. rewrite Hb.
        destruct Hstep as [(_ & Hg & _)|[(d & e & _ & _ & Hg & _)
                                        |(d & -> & Hok & _ & ->)]].
        -- rewrite Hg, list_lookup_insert_eq in Hend by lia. done.
        -- rewrite Hg, list_lookup_insert_eq in Hend by lia. done.
        -- exists d, w. split; [done|]. split; [done|].
           by rewrite list_lookup_insert_eq by lia.
      * replace (start + S k) with (S start + k) in * by lia.
        destruct (Hother (S start + k) ltac:(lia)) as [He _].
        apply Hslot; [simpl in Hk; lia|lia|by rewrite He|done].
Qed.

(** C5.  When the result vector of the stat holds a nil entry,
    [getBucketInfo] returns the entry of [bucketsInfo] at the first such
    slot, with a nil error: it is the information [StatVol] returned for the
    disk of that slot.  No reduction is made, so the answer is the same for
    every read quorum and every reducer, whatever the other slots report. *)
Theorem getBucketInfo_first_success (env env' : Env World)
    (er : erasureObjects Disk) bucketName w i :
  let storageDisks := getDisks er in
  let st := statVolFanout storageDisks bucketName w in
  let r := getBucketInfo env er bucketName w in
  (val st).1 !! i = Some None ->
  (forall j, j < i -> (val st).1 !! j <> Some None) ->
  (exists bi d w',
     (val st).2 !! i = Some bi /\
     storageDisks !! i = Some (Some d) /\
     (StatVol d bucketName w').1.2 = None /\
     bi = BucketInfo_of (StatVol d bucketName w').1.1 /\
     val r = (bi, None)) /\
  count is_reduce (events r) = 0 /\
  val (getBucketInfo env' er bucketName w) = val r.
Proof.
  intros storageDisks st r Hi Hfirst.
  pose proof (firstSuccess_first (val st).1 (val st).2 0 i Hi Hfirst) as Hfs.
  rewrite Nat.add_0_l in Hfs.
  assert (Hrun : forall env0,
    val (getBucketInfo env0 er bucketName w)
      = (default BucketInfo_zero ((val st).2 !! i), None) /\
    events (getBucketInfo env0 er bucketName w) = events st).
  { intros env0. unfold getBucketInfo. fold storageDisks.
    unfold bind. cbn [val world events]. fold st. rewrite Hfs.
    unfold ret. cbn [val events]. by rewrite app_nil_r. }
  destruct (statVolFanout_vector storageDisks bucketName w) as [Hlen _].
  fold st in Hlen.
  assert (Hlt : i < length storageDisks).
  { rewrite <- Hlen. by eapply lookup_lt_Some. }
  destruct (statLoop_spec bucketName storageDisks 0
              (WithNErrs (length storageDisks))
              (replicate (length storageDisks) BucketInfo_zero) w)
    as (_ & _ & Hslot).
  { simpl. by rewrite !length_replicate. }
  destruct (Hslot i) as (d & w' & Hd & Hok & Hbi).
  { done. }
  { by rewrite length_replicate. }
  { simpl. by apply lookup_replicate_2. }
  { exact Hi. }
  assert (Hbi' : (val st).2 !! i
                 = Some (BucketInfo_of (StatVol d bucketName w').1.1))
    by exact Hbi.
  split; [|split].
  - exists (BucketInfo_of (StatVol d bucketName w').1.1), d, w'.
    split; [exact Hbi'|]. split; [done|]. split; [done|]. split; [done|].
    subst r. destruct (Hrun env) as [-> _]. by rewrite Hbi'.
  - subst r. destruct (Hrun env) as [_ ->]. subst st.
    unfold statVolFanout, Wait. rewrite !count_bind. simpl.
    rewrite !Nat.add_0_r. apply forRange_count_none.
    intros j x l w1. rewrite events_Go. by apply statVolTask_events.
  - subst r. destruct (Hrun env) as [-> _]. by destruct (Hrun env') as [-> _].
Qed.
End Stat.

(** ** The operations on scripted disks *)




(** Force mode on scripted disks: one failing slot out of four, and none. *)
Lemma DeleteBucket_force_witness :
  let failing := {| getDisks := map Scripted.deleting
                      [Some errFaultyDisk; None; None; None] |} in
  let healthy := {| getDisks := map Scripted.deleting
                      [None; None; None; None] |} in
  let r1 := DeleteBucket Scripted.env failing "bkt" Scripted.forceMode 0 in
  let r2 := DeleteBucket Scripted.env healthy "bkt" Scripted.forceMode 0 in
  (val r1 = Some errFaultyDisk /\ count is_undo (events r1) = 1) /\
  (val r2 = None /\ count is_undo (events r2) = 0).
Proof.
  intros failing healthy r1 r2. split.
  - apply (proj2 (proj2 (proj2
             (DeleteBucket_force_all_or_nothing Scripted.env failing "bkt"
                false 0))) 0 errFaultyDisk); [reflexivity|].
    intros j Hj. lia.
  - apply (proj1 (proj2
             (DeleteBucket_force_all_or_nothing Scripted.env healthy "bkt"
                false 0))).
    vm_compute. repeat constructor.
Defined.

(** Section 8 of the specification: three slots, stat results
    [BackendUnavailable, nil, BackendUnavailable]; the information of the
    one slot that answered is returned, also when every slot is required
    for a read. *)
Lemma getBucketInfo_first_success_witness :
  let info := {| vol_Name := "bkt"; vol_Created := 1635724800 |} in
  let er := {| getDisks := [None; Scripted.holding info; None] |} in
  let r := getBucketInfo Scripted.env er "bkt" 0 in
  val r = ({| Name := "bkt"; Created := 1635724800 |}, None) /\
  count is_reduce (events r) = 0 /\
  val (getBucketInfo Scripted.envReadAll er "bkt" 0) = val r.
Proof.
  intros info er r.
  destruct (getBucketInfo_first_success Scripted.env Scripted.envReadAll
              er "bkt" 0 1) as ((bi & d & w' & _ & _ & _ & _ & Hval) & Hred & Hind).
  - reflexivity.
  - intros j Hj. assert (j = 0) as -> by lia. vm_compute. discriminate.
  - split; [reflexivity|]. split; [exact Hred|exact Hind].
Defined.

(** C6 fails as stated: on scripted disks that all report
    [errVolumeNotFound], the one reduction of [DeleteBucket] and the one of
    [MakeBucketWithLocation] are made with a list that does not hold
    [errVolumeNotFound], and none with [bucketMetadataOpIgnoredErrs]; the
    error is not ignored: it is what the reduction returns. *)
Lemma reductions_ignore_counterexample :
  let er := {| getDisks := map Scripted.deleting
                 [Some errVolumeNotFound; Some errVolumeNotFound;
                  Some errVolumeNotFound; Some errVolumeNotFound] |} in
  let dl := DeleteBucket Scripted.env er "bkt" Scripted.quorumMode 0 in
  let mk := MakeBucketWithLocation Scripted.env er "bkt"
              {| Location := "" |} 0 in
  let used := bucketOpIgnoredErrs Scripted.env in
  Scripted.IsErrIgnored errVolumeNotFound used = false /\
  count (is_reduce_ignoring used) (events dl) = 1 /\
  count (is_reduce_ignoring used) (events mk) = 1 /\
  count (is_reduce_ignoring (bucketMetadataOpIgnoredErrs Scripted.env))
    (events dl) = 0 /\
  count (is_reduce_ignoring (bucketMetadataOpIgnoredErrs Scripted.env))
    (events mk) = 0 /\
  reduceWriteQuorumErrs Scripted.env
    (val (deleteVolFanout (getDisks er) "bkt" false 0)) used
    (getWriteQuorum Scripted.env (length (getDisks er)))
    = Some errVolumeNotFound /\
  val dl = Some (BucketNotFound "bkt").
Proof. vm_compute. repeat split. Qed.

Lemma reductions_ignore_witness :
  let er := {| getDisks := map Scripted.deleting [None; None; None; None] |} in
  let mk := MakeBucketWithLocation Scripted.env er "bkt"
              {| Location := "" |} 0 in
  count is_reduce (events mk) = 1 /\
  count (is_reduce_ignoring (bucketOpIgnoredErrs Scripted.env)) (events mk)
    = 1.
Proof.
  intros er mk.
  apply (proj2 (proj2 (proj2 (proj2
           (reductions_ignore_bucketOpIgnoredErrs Scripted.env er "bkt"
              {| Location := "" |} false 0))))).
  reflexivity.
Defined.

(** An absent slot between two live ones, in the three fan-outs. *)
Lemma fanout_absent_slot_witness :
  let storageDisks :=
    [Scripted.deleting None; None; Scripted.deleting None] in
  let mk := makeVolFanout storageDisks "bkt" 0 in
  let st := statVolFanout storageDisks "bkt" 0 in
  let dl := deleteVolFanout storageDisks "bkt" false 0 in
  (val mk !! 1 = Some (Some errDiskNotFound) /\
   count (is_backend_at 1) (events mk) = 0) /\
  ((val st).1 !! 1 = Some (Some errDiskNotFound) /\
   count (is_backend_at 1) (events st) = 0) /\
  (val dl !! 1 = Some (Some errDiskNotFound) /\
   count (is_backend_at 1) (events dl) = 0).
Proof.
  intros storageDisks mk st dl.
  apply (proj2 (fanout_absent_slot storageDisks "bkt" false 0) 1).
  reflexivity.
Defined.

(** A name of two characters is refused before any disk is called. *)
Lemma MakeBucketWithLocation_invalid_name_witness :
  let er := {| getDisks := map Scripted.deleting [None; None; None; None] |} in
  let r := MakeBucketWithLocation Scripted.env er "ab"
             {| Location := "" |} 0 in
  val r = Some (BucketNameInvalid "ab") /\
  events r = [EvNSUpdated "ab" slashSeparator] /\
  count is_backend (events r) = 0 /\
  count is_reduce (events r) = 0 /\
  world r = 0.
Proof.
  intros er r.
  apply (MakeBucketWithLocation_invalid_name Scripted.env er "ab"
           {| Location := "" |} 0 (errOther "Bucket name is not valid")).
  reflexivity.
Defined.

(** The slot that is not empty sits on a disk whose [RenameFile] fails: the
    delete succeeds all the same. *)
Lemma DeleteBucket_relocate_result_dropped_witness :
  let er := {| getDisks :=
                 [Scripted.stuck errVolumeNotEmpty;
                  Scripted.deleting (Some errVolumeNotFound);
                  Scripted.deleting (Some errVolumeNotFound);
                  Scripted.deleting (Some errVolumeNotFound)] |} in
  let r := DeleteBucket Scripted.env er "bkt" Scripted.quorumMode 0 in
  val r = None /\ count (is_relocate_at 0) (events r) = 1.
Proof.
  intros er r.
  apply (DeleteBucket_relocate_result_dropped Scripted.env er "bkt" false 0 0);
    [right; reflexivity | reflexivity].
Defined.

(** Section 8 of the specification: delete results
    [Timeout, Timeout, nil, nil] without [Force] nor [NoRecreate]; the
    reduction is the write-quorum loss and the rollback recreates the bucket
    on the four slots. *)
Example DeleteBucket_quorum_lost :
  let er := {| getDisks := map Scripted.deleting
                 [Some (errOther "timeout"); Some (errOther "timeout");
                  None; None] |} in
  let r := DeleteBucket Scripted.env er "bkt" Scripted.quorumMode 0 in
  val r = Some InsufficientWriteQuorum /\
  count is_undo (events r) = 1 /\
  events (undoDeleteBucket (getDisks er) "bkt" 0) =
    [EvUndoDeleteBucket "bkt"; EvMakeVol 0 "bkt"; EvMakeVol 1 "bkt";
     EvMakeVol 2 "bkt"; EvMakeVol 3 "bkt"].
Proof. vm_compute. repeat split. Qed.

(** Section 8 of the specification: create results
    [nil, nil, nil, AlreadyExists]; [MakeBucketWithLocation] succeeds. *)
Example MakeBucketWithLocation_minority_exists :
  let made := Scripted.deleting None in
  let er := {| getDisks :=
                 [made; made; made;
                  Scripted.holding {| vol_Name := "bkt"; vol_Created := 0 |}] |} in
  let r := MakeBucketWithLocation Scripted.env er "bkt"
             {| Location := "" |} 0 in
  val (makeVolFanout (getDisks er) "bkt" 0)
    = [None; None; None; Some errVolumeExists] /\
  val r = None.
Proof. vm_compute. repeat split. Qed.

(** ** The fan-out as a sequence of tasks *)

(** The loop over [g.Go] followed by [g.Wait()] gives the results of the
    tasks in slot order: the group writes each result at its own index. *)
Lemma Go_loop_runTasks {World A L}
    (task : nat -> A -> L -> M World (option error * L)) :
  forall xs start done l w,
    length done = start ->
    let r := forRange (fun index x => Go (task index x) index) start xs
               ({| errs := done ++ replicate (length xs) None |}, l) w in
    let s := runTasks task start xs l w in
    errs (val r).1 = done ++ (val s).1 /\
    (val r).2 = (val s).2 /\
    world r = world s /\
    events r = events s.
Proof.
  induction xs as [|x xs IH]; intros start done l w Hlen; cbv zeta.
  - simpl. by rewrite !app_nil_r.
  - rewrite forRange_cons. cbv zeta. cbn [val world events runTasks].
    set (t := task start x l w).
    assert (Hgo : Go (task start x) start
                    ({| errs := done ++ replicate (length (x :: xs)) None |}, l)
                    w
                  = MkRes ({| errs := (done ++ [(val t).1])
                                       ++ replicate (length xs) None |},
                           (val t).2)
                      (world t) (events t)).
    { unfold Go, bind, ret. cbn [val world events fst snd]. fold t.
      rewrite app_nil_r. f_equal. f_equal.
      destruct (val t).1 as [e|]; cbn [errs length replicate].
      - f_equal. rewrite insert_app_r_alt by lia.
        rewrite Hlen, Nat.sub_diag. cbn. by rewrite <- app_assoc.
      - by rewrite <- app_assoc. }
    rewrite Hgo. cbn [val world events].
    destruct (IH (S start) (done ++ [(val t).1]) (val t).2 (world t))
      as (He & Hl & Hw & Hev).
    { rewrite length_app. simpl. lia. }
    rewrite He, Hl, Hw, Hev. unfold bind, ret. cbn [val world events fst snd].
    fold t. rewrite <- app_assoc, app_nil_r. done.
Qed.

Lemma fanout_runTasks {World A L}
    (task : nat -> A -> L -> M World (option error * L)) xs l w :
  let r := forRange (fun index x => Go (task index x) index) 0 xs
             (WithNErrs (length xs), l) w in
  let s := runTasks task 0 xs l w in
  errs (val r).1 = (val s).1 /\ (val r).2 = (val s).2 /\
  world r = world s /\ events r = events s.
Proof. apply (Go_loop_runTasks task xs 0 [] l w). done. Qed.

(** ** Further properties of DeleteBucket *)

Section DeleteMore.
Context {Disk World : Type} `{!StorageAPI Disk World}.
Variable env : Env World.
Implicit Types (storageDisks : list (option Disk)) (bucket : string).
Implicit Types (w : World) (dErrs : list (option error)).
Implicit Types (er : erasureObjects Disk) (opts : DeleteBucketOptions).

(** The calls of [DeleteBucket], in both modes: the delete fan-out first,
    the deferred [NSUpdated] last, and in between only the reduction, the
    rollback and the relocations. *)
Lemma DeleteBucket_trace er bucket opts w :
  exists rest,
    events (DeleteBucket env er bucket opts w) =
      events (deleteVolFanout (getDisks er) bucket (Force opts) w)
      ++ rest ++ [EvNSUpdated bucket slashSeparator] /\
    (forall p,
       (forall j v, p (EvMakeVol j v) = false) ->
       (forall j a b c d, p (EvRenameFile j a b c d) = false) ->
       (forall b, p (EvUndoDeleteBucket b) = false) ->
       (forall errs ign q, p (EvReduceWriteQuorumErrs errs ign q) = false) ->
       count p rest = 0).
Proof.
  destruct opts as [[|] noRecreate].
  - set (fan := deleteVolFanout (getDisks er) bucket true w).
    exists (events (forceLoop env (getDisks er) bucket (val fan) (world fan))).
    split.
    + unfold DeleteBucket, deferNSUpdated, bind, emit, ret.
      cbn [Force val world events]. fold fan. by simplify_list_eq.
    + intros p Hmk _ Hundo _.
      destruct (forceLoop_spec env (getDisks er) bucket (val fan) (world fan))
        as [_ ->].
      destruct (firstErr (val fan)); [|done].
      rewrite undoDeleteBucket_count by done. by rewrite Hundo.
  - destruct (DeleteBucket_quorum env er bucket noRecreate w) as [_ Hev].
    cbv zeta in Hev. cbn [Force].
    match type of Hev with
    | _ = _ ++ ?a ++ ?b ++ ?c ++ _ => exists (a ++ b ++ c)
    end.
    split; [rewrite Hev; by rewrite <- !app_assoc|]. clear Hev.
    intros p Hmk Hrn Hundo Hred. rewrite !count_app. cbn [count].
    rewrite Hred.
    match goal with
    | |- context [if rollsBack ?e ?o then _ else _] =>
        destruct (rollsBack e o)
    end;
    match goal with
    | |- context [if inspectsSlots ?e then _ else _] =>
        destruct (inspectsSlots e)
    end;
    rewrite ?undoDeleteBucket_count by done; rewrite ?Hundo; cbn [count];
    try match goal with
    | |- context [purgeLoop env ?ds ?b 0 ?errs false ?w1] =>
        destruct (purgeLoop_spec env ds b errs 0 false w1)
          as (_ & _ & _ & Hnone); rewrite (Hnone p Hrn)
    end; lia.
Qed.

Lemma deleteVolFanout_flag i (f : bool) storageDisks bucket force w :
  count (is_deletevol_at i f)
    (events (deleteVolFanout storageDisks bucket force w)) =
  if bool_decide (f = force) && liveAt storageDisks i then 1 else 0.
Proof.
  unfold deleteVolFanout, Wait. rewrite count_bind. simpl.
  rewrite Nat.add_0_r.
  destruct (decide (f = force)) as [->|Hne].
  - rewrite bool_decide_true by done. cbn [andb].
    rewrite (forRange_count_slot (is_deletevol_at i force) i).
    + rewrite Nat.sub_0_r. by rewrite bool_decide_true by lia.
    + intros j x l w1. rewrite events_Go, events_closure.
      destruct x as [d|]; simpl; [|by rewrite andb_false_r].
      rewrite events_call. simpl.
      rewrite (bool_decide_true (force = force)) by done.
      rewrite !andb_true_r. by destruct (bool_decide (j = i)).
  - rewrite bool_decide_false by done. cbn [andb].
    apply forRange_count_none. intros j x l w1.
    rewrite events_Go, events_closure.
    destruct x as [d|]; simpl; [|done].
    rewrite events_call. simpl.
    rewrite (bool_decide_false (force = f)) by done.
    by rewrite andb_false_r.
Qed.

(** X7.  Whatever the mode, [DeleteBucket] calls [DeleteVol] exactly once
    on the disk of every live slot, with the [Force] flag of its options,
    never on an absent slot and never with the other flag. *)
Theorem DeleteBucket_deleteVol_once er bucket opts w i (f : bool) :
  count (is_deletevol_at i f) (events (DeleteBucket env er bucket opts w)) =
  if bool_decide (f = Force opts) && liveAt (getDisks er) i then 1 else 0.
Proof.
  destruct (DeleteBucket_trace er bucket opts w) as (rest & -> & Hrest).
  rewrite !count_app, deleteVolFanout_flag, Hrest by done.
  cbn [count is_deletevol_at]. lia.
Qed.

(** X6.  [NSUpdated(bucket, "/")] is deferred: it is the last call of every
    [DeleteBucket] and of every [MakeBucketWithLocation], the refused name
    included, and it is made once. *)
Theorem NSUpdated_last er bucket opts mkopts w :
  (exists evs,
     events (DeleteBucket env er bucket opts w)
       = evs ++ [EvNSUpdated bucket slashSeparator] /\
     count is_nsupdated evs = 0) /\
  (exists evs,
     events (MakeBucketWithLocation env er bucket mkopts w)
       = evs ++ [EvNSUpdated bucket slashSeparator] /\
     count is_nsupdated evs = 0).
Proof.
  split.
  - destruct (DeleteBucket_trace er bucket opts w) as (rest & -> & Hrest).
    exists (events (deleteVolFanout (getDisks er) bucket (Force opts) w)
            ++ rest).
    split; [by rewrite app_assoc|].
    by rewrite count_app, deleteVolFanout_count, Hrest.
  - destruct (CheckValidBucketNameStrict env bucket) as [e|] eqn:Hname.
    + exists []. split; [|done].
      unfold MakeBucketWithLocation, deferNSUpdated. by rewrite Hname.
    + destruct (MakeBucketWithLocation_valid env er bucket mkopts w Hname)
        as [_ ->].
      match goal with
      | |- context [?a ++ [?b; _]] => exists (a ++ [b])
      end.
      split; [by rewrite <- app_assoc|].
      by rewrite count_app, makeVolFanout_count.
Qed.

Lemma rollsBack_not_inspects (err : option error) opts :
  rollsBack err opts = true -> inspectsSlots err = false.
Proof.
  unfold rollsBack, inspectsSlots. intros Hrb.
  apply andb_true_iff in Hrb as [Herr _].
  by apply bool_decide_eq_true in Herr as ->.
Qed.

(** X8.  No [DeleteBucket] both rolls back and relocates: when the rollback
    is entered no slot is relocated, and with [Force] nothing is ever
    relocated. *)
Theorem DeleteBucket_rollback_excludes_relocate er bucket opts w :
  let r := DeleteBucket env er bucket opts w in
  (count is_undo (events r) = 0 \/ count is_relocate (events r) = 0) /\
  (Force opts = true -> count is_relocate (events r) = 0).
Proof.
  intros r. subst r. destruct opts as [[|] noRecreate].
  - destruct (DeleteBucket_force env er bucket noRecreate w) as [_ Hcount].
    assert (Hnone : count is_relocate
                      (events (DeleteBucket env er bucket
                                 {| Force := true; NoRecreate := noRecreate |}
                                 w)) = 0).
    { rewrite Hcount by done. by destruct (firstErr _). }
    split; [by right|done].
  - split; [|done].
    destruct (DeleteBucket_relocates env er bucket noRecreate w)
      as (_ & Hrel & _).
    rewrite Hrel. rewrite (DeleteBucket_quorum_count env is_undo) by done.
    cbn [is_undo].
    match goal with
    | |- context [rollsBack ?e ?o] =>
        destruct (rollsBack e o) eqn:Hrb;
        [rewrite (rollsBack_not_inspects e o Hrb); by right|]
    end.
    left. cbn [andb].
    destruct (inspectsSlots _); [|done].
    match goal with
    | |- context [purgeLoop env ?ds ?b 0 ?errs false ?w1] =>
        destruct (purgeLoop_spec env ds b errs 0 false w1)
          as (_ & _ & _ & Hnone)
    end.
    by rewrite Hnone.
Qed.

Lemma toObjectErr_nil (err : option error) bucket :
  toObjectErr env err bucket = None <-> err = None.
Proof. by destruct err. Qed.

(** X9.  Without [Force], [DeleteBucket] succeeds exactly when the
    reduction of the delete errors is nil, or it is an error that is
    [errVolumeNotFound] and at least one slot reported
    [errVolumeNotEmpty]; otherwise it returns the translation of the
    reduced error. *)
Theorem DeleteBucket_success_iff er bucket noRecreate w :
  let storageDisks := getDisks er in
  let dErrs := val (deleteVolFanout storageDisks bucket false w) in
  let err := reduceWriteQuorumErrs env dErrs (bucketOpIgnoredErrs env)
               (getWriteQuorum env (length storageDisks)) in
  let r := DeleteBucket env er bucket
             {| Force := false; NoRecreate := noRecreate |} w in
  (val r = None <->
   err = None \/
   (errors_Is err errVolumeNotFound = true /\
    1 <= occurrences errVolumeNotEmpty dErrs)) /\
  (val r = None \/ val r = toObjectErr env err bucket).
Proof.
  intros storageDisks dErrs err r.
  destruct (DeleteBucket_relocates env er bucket noRecreate w) as (Hval & _).
  fold storageDisks dErrs err r in Hval. rewrite Hval.
  unfold inspectsSlots.
  destruct (Nat.ltb_spec 0 (occurrences errVolumeNotEmpty dErrs))
    as [Hpos|Hzero].
  - rewrite andb_true_r. destruct err as [e|] eqn:Herr.
    + rewrite (bool_decide_false (Some e = None)) by done. cbn [orb].
      destruct (errors_Is (Some e) errVolumeNotFound) eqn:His.
      * split; [|by left]. split; [intros _; by right|done].
      * split; [|by right]. rewrite toObjectErr_nil.
        split; [done|]. intros [?|[? _]]; done.
    + split; [|by left]. split; [by left|done].
  - rewrite andb_false_r. split; [|by right]. rewrite toObjectErr_nil.
    split; [by left|]. intros [?|[_ ?]]; [done|lia].
Qed.

(** X10.  Without [Force], the bucket is recreated ([MakeVol]) on a slot
    exactly when the rollback is entered and the slot is live, whatever the
    slot's own delete result was; with [NoRecreate] nothing is recreated. *)
Theorem DeleteBucket_recreate_slots er bucket noRecreate w i :
  let storageDisks := getDisks er in
  let dErrs := val (deleteVolFanout storageDisks bucket false w) in
  let err := reduceWriteQuorumErrs env dErrs (bucketOpIgnoredErrs env)
               (getWriteQuorum env (length storageDisks)) in
  count (is_makevol_at i)
    (events (DeleteBucket env er bucket
               {| Force := false; NoRecreate := noRecreate |} w)) =
  if bool_decide (err = Some errErasureWriteQuorum) && negb noRecreate
     && liveAt storageDisks i
  then 1 else 0.
Proof.
  intros storageDisks dErrs err.
  destruct (DeleteBucket_quorum env er bucket noRecreate w) as [_ Hev].
  cbv zeta in Hev. fold storageDisks dErrs err in Hev. rewrite Hev.
  clear Hev. rewrite !count_app. cbn [count is_makevol_at].
  rewrite deleteVolFanout_count by done. unfold rollsBack at 1.
  cbn [NoRecreate].
  assert (Hpurge : forall w1,
    count (is_makevol_at i)
      (if inspectsSlots err
       then events (purgeLoop env storageDisks bucket 0 dErrs false w1)
       else []) = 0).
  { intros w1. destruct (inspectsSlots err); [|done].
    destruct (purgeLoop_spec env storageDisks bucket dErrs 0 false w1)
      as (_ & _ & _ & Hnone). by apply Hnone. }
  rewrite Hpurge.
  destruct (bool_decide (err = Some errErasureWriteQuorum) && negb noRecreate);
    cbn [andb count]; [|lia].
  rewrite undoDeleteBucket_events. cbn [count is_makevol_at].
  rewrite (count_liveIndices (is_makevol_at i) i) by done.
  rewrite Nat.sub_0_r. rewrite bool_decide_true by lia. cbn [andb]. lia.
Qed.
End DeleteMore.

(** ** Force mode, the target of the relocations, alignment of the vectors *)

Section FanoutMore.
Context {Disk World : Type} `{!StorageAPI Disk World}.
Variable env : Env World.
Implicit Types (storageDisks : list (option Disk)) (bucket : string).
Implicit Types (w : World) (dErrs : list (option error)).
Implicit Types (er : erasureObjects Disk).

Lemma firstErr_none dErrs :
  firstErr dErrs = None -> Forall (fun err => err = None) dErrs.
Proof.
  induction dErrs as [|[e|] rest IH]; intros Hf; [done|done|].
  constructor; [done|]. by apply IH.
Qed.

(** X11.  With [Force], [DeleteBucket] succeeds exactly when every entry of
    the delete vector is nil.  An absent slot is enough to make it fail and
    roll back: force-delete needs every disk of the set. *)
Theorem DeleteBucket_force_needs_all er bucket noRecreate w :
  let storageDisks := getDisks er in
  let dErrs := val (deleteVolFanout storageDisks bucket true w) in
  let r := DeleteBucket env er bucket
             {| Force := true; NoRecreate := noRecreate |} w in
  (val r = None <-> Forall (fun err => err = None) dErrs) /\
  (forall i, storageDisks !! i = Some None ->
     val r <> None /\ count is_undo (events r) = 1).
Proof.
  intros storageDisks dErrs r.
  destruct (DeleteBucket_force env er bucket noRecreate w) as [Hval Hcount].
  fold storageDisks dErrs r in Hval, Hcount. split.
  - rewrite Hval. split.
    + intros Hnil. apply firstErr_none. by destruct (firstErr dErrs).
    + intros Hall. by rewrite (firstErr_all_nil dErrs Hall).
  - intros i Hi.
    destruct (deleteVolFanout_vector storageDisks bucket true w) as [_ Habs].
    destruct (firstErr_some dErrs i errDiskNotFound (Habs i Hi))
      as (i' & e' & _ & Hf).
    rewrite Hval, (Hcount is_undo) by done. by rewrite Hf.
Qed.

Lemma purgeLoop_target storageDisks bucket dErrs :
  forall index purged w,
    count (is_misdirected bucket (minioMetaTmpDeletedBucket env))
      (events (purgeLoop env storageDisks bucket index dErrs purged w)) = 0.
Proof.
  induction dErrs as [|err rest IH]; intros index purged w; [done|].
  cbn [purgeLoop]. destruct (bool_decide (err = Some errVolumeNotEmpty));
    [|apply IH].
  destruct (storageDisks !! index) as [[d|]|]; [|apply IH..].
  rewrite !count_bind, callMustGetUUID_events, events_call, IH.
  cbn [count is_misdirected]. by rewrite !bool_decide_true by done.
Qed.

(** X12.  Every [RenameFile] of a [DeleteBucket] moves the whole bucket
    (source volume the bucket, empty source path) into the volume
    [minioMetaTmpDeletedBucket]: nothing is relocated anywhere else. *)
Theorem DeleteBucket_relocate_target er bucket opts w :
  count (is_misdirected bucket (minioMetaTmpDeletedBucket env))
    (events (DeleteBucket env er bucket opts w)) = 0.
Proof.
  destruct opts as [[|] noRecreate].
  - destruct (DeleteBucket_force env er bucket noRecreate w) as [_ Hcount].
    rewrite Hcount by done. by destruct (firstErr _).
  - rewrite (DeleteBucket_quorum_count env) by done.
    cbn [is_misdirected]. rewrite andb_false_r.
    destruct (inspectsSlots _); [|done]. by rewrite purgeLoop_target.
Qed.



(** *** MakeBucketWithLocation *)

Lemma makeVolTask_logged bucket index (disk : option Disk) w :
  count is_log (events (makeVolTask bucket index disk w)) =
  if isLive disk
     && match val (makeVolTask bucket index disk w) with
        | Some e => negb (errors_Is (Some e) errVolumeExists)
        | None => false
        end
  then 1 else 0.
Proof.
  destruct disk as [d|]; [|done]. cbn [makeVolTask isLive andb].
  unfold bind. cbn [val events]. rewrite count_app, events_call, val_call.
  rewrite world_call. cbn [count is_log].
  destruct (MakeVol d bucket w).1 as [e|]; [|done].
  unfold bind, emit, ret. cbn [val events].
  by destruct (negb (errors_Is (Some e) errVolumeExists)).
Qed.

Lemma runTasks_logged bucket storageDisks :
  forall start u w,
    let s := runTasks
               (fun index disk => closure (makeVolTask bucket index disk))
               start storageDisks u w in
    count is_log (events s) = loggedSlots storageDisks (val s).1.
Proof.
  induction storageDisks as [|disk rest IH]; intros start u w; [done|].
  cbv zeta. cbn [runTasks]. rewrite !count_bind.
  unfold bind at 1 2. unfold ret. cbn [val world events fst snd count].
  cbn [loggedSlots]. rewrite events_closure, makeVolTask_logged, IH.
  change (val (closure (makeVolTask bucket start disk) u w)).1
    with (val (makeVolTask bucket start disk w)).
  lia.
Qed.

(** X5.  In the create fan-out the error of a slot is logged exactly when
    the slot is live and [MakeVol] failed with an error that is not
    [errVolumeExists]: an existing volume and an absent disk are not
    logged. *)
Theorem makeVolFanout_logging storageDisks bucket w :
  let fan := makeVolFanout storageDisks bucket w in
  count is_log (events fan) = loggedSlots storageDisks (val fan).
Proof.
  cbv zeta.
  destruct (fanout_runTasks
              (fun index disk => closure (makeVolTask bucket index disk))
              storageDisks tt w) as (Herrs & _ & _ & Hev).
  unfold makeVolFanout, Wait, bind, ret. cbn [val events].
  rewrite app_nil_r, Herrs, Hev. apply runTasks_logged.
Qed.

Lemma makeVolFanout_makevol_at i storageDisks bucket w :
  count (is_makevol_at i) (events (makeVolFanout storageDisks bucket w)) =
  if liveAt storageDisks i then 1 else 0.
Proof.
  unfold makeVolFanout, Wait. rewrite count_bind. simpl.
  rewrite Nat.add_0_r.
  rewrite (forRange_count_slot (is_makevol_at i) i).
  - rewrite Nat.sub_0_r. by rewrite bool_decide_true by lia.
  - intros j x l w1. rewrite events_Go, events_closure.
    destruct x as [d|]; simpl; [|by rewrite andb_false_r].
    unfold bind. cbn [events]. rewrite count_app, events_call, andb_true_r.
    cbn [count is_makevol_at]. rewrite val_call, world_call.
    destruct (MakeVol d bucket w1).1 as [e|]; cbn [events count];
      [destruct (negb _); cbn [events count emit ret]|];
      destruct (bool_decide (j = i)); done.
Qed.

(** X4.  With a valid name, [MakeBucketWithLocation] returns the
    translation of the write-quorum reduction of the create errors; it
    calls [MakeVol] once on every live slot and no other method of a disk,
    and it never rolls back: a failed create leaves the volumes it
    created. *)
Theorem MakeBucketWithLocation_no_rollback er bucket opts w :
  let storageDisks := getDisks er in
  let errs := val (makeVolFanout storageDisks bucket w) in
  let r := MakeBucketWithLocation env er bucket opts w in
  CheckValidBucketNameStrict env bucket = None ->
  val r = toObjectErr env
            (reduceWriteQuorumErrs env errs (bucketOpIgnoredErrs env)
               (getWriteQuorum env (length storageDisks))) bucket /\
  (forall i, count (is_makevol_at i) (events r) =
             if liveAt storageDisks i then 1 else 0) /\
  (forall i, count (is_backend_at i) (events r) =
             if liveAt storageDisks i then 1 else 0) /\
  count is_undo (events r) = 0 /\
  count is_deletevol (events r) = 0.
Proof.
  intros storageDisks errs r Hvalid.
  destruct (MakeBucketWithLocation_valid env er bucket opts w Hvalid)
    as [Hval Hev].
  fold storageDisks r in Hval, Hev. rewrite Hval, Hev.
  split; [done|]. rewrite !count_app. cbn [count is_undo is_deletevol].
  rewrite !makeVolFanout_count by done.
  repeat split; try done; intros i; rewrite count_app;
    cbn [count is_makevol_at is_backend_at];
    rewrite ?makeVolFanout_makevol_at, ?makeVolFanout_backend_at; lia.
Qed.
End FanoutMore.

(** ** Further properties of getBucketInfo and GetBucketInfo *)

Section StatMore.
Context {Disk World : Type} `{!StorageAPI Disk World}.
Variable env : Env World.
Implicit Types (storageDisks : list (option Disk)) (bucket : string).
Implicit Types (w : World) (errs : list (option error)).
Implicit Types (er : erasureObjects Disk) (bucketsInfo : list BucketInfo).

Lemma firstSuccess_none errs bucketsInfo :
  forall start,
    Forall (fun err => err <> None) errs ->
    firstSuccess start errs bucketsInfo = None.
Proof.
  induction errs as [|[e|] rest IH]; intros start Hall; [done| |].
  - simpl. apply IH. by inversion Hall.
  - by inversion Hall.
Qed.

(** X1.  When no slot answered the stat, [getBucketInfo] returns the zero
    [BucketInfo] and the read-quorum reduction of the whole error vector,
    made with no ignored error and the read quorum of the set; this
    reduction is its only call after the stat fan-out. *)
Theorem getBucketInfo_all_failed er bucket w :
  let storageDisks := getDisks er in
  let st := statVolFanout storageDisks bucket w in
  let readQuorum := getReadQuorum env (length storageDisks) in
  let r := getBucketInfo env er bucket w in
  Forall (fun err => err <> None) (val st).1 ->
  val r = (BucketInfo_zero,
           reduceReadQuorumErrs env (val st).1 [] readQuorum) /\
  events r = events st ++ [EvReduceReadQuorumErrs (val st).1 [] readQuorum].
Proof.
  intros storageDisks st readQuorum r Hall.
  pose proof (firstSuccess_none (val st).1 (val st).2 0 Hall) as Hfs.
  subst r st readQuorum storageDisks.
  unfold getBucketInfo, callReduceReadQuorumErrs, bind, emit, ret.
  cbn [val world events]. rewrite Hfs. cbn [val world events].
  by rewrite !app_nil_r.
Qed.

Lemma GetBucketInfo_run er bucket w :
  let g := getBucketInfo env er bucket w in
  let r := GetBucketInfo env er bucket w in
  events r = events g /\
  val r = match (val g).2 with
          | Some e => (BucketInfo_zero, Some (objectErrOf env e bucket))
          | None => ((val g).1, None)
          end.
Proof.
  cbv zeta. unfold GetBucketInfo, bind. cbn [val events].
  destruct (val (getBucketInfo env er bucket w)).2;
    unfold ret; cbn [val events]; by rewrite app_nil_r.
Qed.

(** X2.  [GetBucketInfo] answers with the information of the first slot
    whose stat succeeded, and no error; when no slot succeeded it answers
    with the zero [BucketInfo] and the translation of the read-quorum
    reduction of the errors. *)
Theorem GetBucketInfo_outcome er bucket w :
  let storageDisks := getDisks er in
  let st := statVolFanout storageDisks bucket w in
  let r := GetBucketInfo env er bucket w in
  (forall i,
     (val st).1 !! i = Some None ->
     (forall j, j < i -> (val st).1 !! j <> Some None) ->
     val r = (default BucketInfo_zero ((val st).2 !! i), None)) /\
  (Forall (fun err => err <> None) (val st).1 ->
   val r = (BucketInfo_zero,
            toObjectErr env
              (reduceReadQuorumErrs env (val st).1 []
                 (getReadQuorum env (length storageDisks))) bucket)).
Proof.
  intros storageDisks st r.
  destruct (GetBucketInfo_run er bucket w) as [_ Hval].
  fold r in Hval. split.
  - intros i Hi Hfirst.
    pose proof (firstSuccess_first (val st).1 (val st).2 0 i Hi Hfirst) as Hfs.
    rewrite Nat.add_0_l in Hfs. rewrite Hval. subst st storageDisks.
    unfold getBucketInfo, bind. cbn [val world]. rewrite Hfs. done.
  - intros Hall.
    destruct (getBucketInfo_all_failed er bucket w Hall) as [Hg _].
    fold storageDisks st in Hg. rewrite Hval, Hg. cbn [fst snd].
    by destruct (reduceReadQuorumErrs _ _ _ _).
Qed.

Lemma statVolFanout_count p storageDisks bucket w :
  (forall j v, p (EvStatVol j v) = false) ->
  count p (events (statVolFanout storageDisks bucket w)) = 0.
Proof.
  intros Hp. unfold statVolFanout, Wait. rewrite !count_bind. simpl.
  rewrite !Nat.add_0_r. apply forRange_count_none.
  intros j x l w1. rewrite events_Go. by apply statVolTask_events.
Qed.

Lemma statVolFanout_statvol_at i storageDisks bucket w :
  count (is_statvol_at i) (events (statVolFanout storageDisks bucket w)) =
  if liveAt storageDisks i then 1 else 0.
Proof.
  unfold statVolFanout, Wait. rewrite !count_bind. simpl.
  rewrite !Nat.add_0_r.
  rewrite (forRange_count_slot (is_statvol_at i) i).
  - rewrite Nat.sub_0_r. by rewrite bool_decide_true by lia.
  - intros j x l w1. rewrite events_Go.
    destruct x as [d|]; simpl; [|by rewrite andb_false_r].
    unfold bind. cbn [events]. rewrite count_app, events_call, andb_true_r.
    cbn [count is_statvol_at]. rewrite val_call, world_call.
    destruct (StatVol d bucket w1).1.2 as [e|]; cbn [events count ret];
      destruct (bool_decide (j = i)); done.
Qed.

Lemma getBucketInfo_events er bucket w :
  exists tail,
    events (getBucketInfo env er bucket w)
      = events (statVolFanout (getDisks er) bucket w) ++ tail /\
    (forall p, (forall a b c, p (EvReduceReadQuorumErrs a b c) = false) ->
               count p tail = 0).
Proof.
  unfold getBucketInfo, bind at 1. cbn [events val world].
  destruct (firstSuccess 0 _ _).
  - exists []. by split.
  - eexists [_]. split.
    + unfold callReduceReadQuorumErrs, bind, emit, ret. cbn [events val world].
      reflexivity.
    + intros p Hp. cbn [count]. by rewrite Hp.
Qed.

(** X3.  [GetBucketInfo] only reads: it calls [StatVol] once on every live
    slot and no other method of a disk, and it never creates, deletes,
    relocates, rolls back or signals a namespace update. *)
Theorem GetBucketInfo_read_only er bucket w :
  let r := GetBucketInfo env er bucket w in
  (forall i, count (is_statvol_at i) (events r) =
             if liveAt (getDisks er) i then 1 else 0) /\
  (forall i, count (is_backend_at i) (events r) =
             if liveAt (getDisks er) i then 1 else 0) /\
  count is_makevol (events r) = 0 /\
  count is_deletevol (events r) = 0 /\
  count is_relocate (events r) = 0 /\
  count is_undo (events r) = 0 /\
  count is_nsupdated (events r) = 0.
Proof.
  intros r. destruct (GetBucketInfo_run er bucket w) as [Hev _].
  fold r in Hev. rewrite Hev.
  destruct (getBucketInfo_events er bucket w) as (tail & -> & Htail).
  rewrite !count_app, !statVolFanout_count, !Htail by done.
  repeat split; try done; intros i; rewrite count_app, Htail by done.
  - rewrite statVolFanout_statvol_at. lia.
  - rewrite statVolFanout_backend_at. lia.
Qed.
End StatMore.

(** ** The further properties on scripted disks *)

(** Three slots, only the middle one live, and its stat fails: the read
    reduction of the three errors is returned. *)
Lemma getBucketInfo_all_failed_witness :
  let missing := scriptedDisk None
                   ({| vol_Name := ""; vol_Created := 0 |},
                    Some errVolumeNotFound) None None in
  let er := {| getDisks := [None; missing; None] |} in
  let st := statVolFanout (getDisks er) "bkt" 0 in
  let r := getBucketInfo Scripted.env er "bkt" 0 in
  val r = (BucketInfo_zero,
           reduceReadQuorumErrs Scripted.env (val st).1 []
             (getReadQuorum Scripted.env (length (getDisks er)))) /\
  events r = events st
             ++ [EvReduceReadQuorumErrs (val st).1 []
                   (getReadQuorum Scripted.env (length (getDisks er)))].
Proof.
  intros missing er st r.
  apply (getBucketInfo_all_failed Scripted.env er "bkt" 0).
  vm_compute. repeat (constructor; [discriminate|]). constructor.
Defined.

Lemma GetBucketInfo_outcome_witness :
  let info := {| vol_Name := "bkt"; vol_Created := 1635724800 |} in
  let missing := scriptedDisk None
                   ({| vol_Name := ""; vol_Created := 0 |},
                    Some errVolumeNotFound) None None in
  let found := {| getDisks := [None; Scripted.holding info; None] |} in
  let lost := {| getDisks := [missing; missing; None] |} in
  val (GetBucketInfo Scripted.env found "bkt" 0)
    = ({| Name := "bkt"; Created := 1635724800 |}, None) /\
  val (GetBucketInfo Scripted.env lost "bkt" 0)
    = (BucketInfo_zero, Some (BucketNotFound "bkt")).
Proof.
  intros info missing found lost. split.
  - etransitivity;
      [apply (proj1 (GetBucketInfo_outcome Scripted.env found "bkt" 0) 1)
      |reflexivity].
    + reflexivity.
    + intros j Hj. assert (j = 0) as -> by lia. vm_compute. discriminate.
  - etransitivity;
      [apply (proj2 (GetBucketInfo_outcome Scripted.env lost "bkt" 0))
      |reflexivity].
    vm_compute. repeat (constructor; [discriminate|]). constructor.
Defined.

Lemma MakeBucketWithLocation_no_rollback_witness :
  let failing := scriptedDisk (Some errFaultyDisk)
                   ({| vol_Name := ""; vol_Created := 0 |}, None) None None in
  let er := {| getDisks := [failing; failing; Scripted.deleting None; None] |} in
  let r := MakeBucketWithLocation Scripted.env er "bkt"
             {| Location := "" |} 0 in
  val r = Some InsufficientWriteQuorum /\
  (forall i, count (is_makevol_at i) (events r) =
             if liveAt (getDisks er) i then 1 else 0) /\
  (forall i, count (is_backend_at i) (events r) =
             if liveAt (getDisks er) i then 1 else 0) /\
  count is_undo (events r) = 0 /\
  count is_deletevol (events r) = 0.
Proof.
  intros failing er r.
  destruct (MakeBucketWithLocation_no_rollback Scripted.env er "bkt"
              {| Location := "" |} 0) as (Hval & Hrest).
  - reflexivity.
  - split; [|exact Hrest]. etransitivity; [exact Hval|reflexivity].
Defined.

Lemma DeleteBucket_rollback_excludes_relocate_witness :
  let er := {| getDisks := map Scripted.deleting
                 [Some errVolumeNotEmpty; Some errVolumeNotFound;
                  Some errVolumeNotFound; Some errVolumeNotFound] |} in
  count is_relocate
    (events (DeleteBucket Scripted.env er "bkt" Scripted.forceMode 0)) = 0.
Proof.
  intros er.
  apply (proj2 (DeleteBucket_rollback_excludes_relocate Scripted.env er "bkt"
                  Scripted.forceMode 0)).
  reflexivity.
Defined.

(** Two healthy disks and one absent slot: the forced delete fails and the
    bucket is recreated. *)
Lemma DeleteBucket_force_needs_all_witness :
  let er := {| getDisks :=
                 [Scripted.deleting None; None; Scripted.deleting None] |} in
  let r := DeleteBucket Scripted.env er "bkt" Scripted.forceMode 0 in
  val r <> None /\ count is_undo (events r) = 1.
Proof.
  intros er r.
  apply (proj2 (DeleteBucket_force_needs_all Scripted.env er "bkt" false 0) 1).
  reflexivity.
Defined.


(** ** The empty backend set *)

Section EmptySet.
Context {Disk World : Type} `{!StorageAPI Disk World}.
Variable env : Env World.

(** X14.  On an empty backend set no disk is called and nothing is rolled
    back by a create or a stat.  A forced delete succeeds at once; a delete
    without [Force] and a create return the translation of the write-quorum
    reduction of the empty vector, and a stat returns the zero
    [BucketInfo] with the read-quorum reduction of the empty vector. *)
Theorem empty_backend_set (er : erasureObjects Disk) bucket noRecreate
    mkopts (w : World) :
  getDisks er = [] ->
  let forced := DeleteBucket env er bucket
                  {| Force := true; NoRecreate := noRecreate |} w in
  let deleted := DeleteBucket env er bucket
                   {| Force := false; NoRecreate := noRecreate |} w in
  let made := MakeBucketWithLocation env er bucket mkopts w in
  let stat := getBucketInfo env er bucket w in
  let reduced := reduceWriteQuorumErrs env [] (bucketOpIgnoredErrs env)
                   (getWriteQuorum env 0) in
  (val forced = None /\
   events forced = [EvNSUpdated bucket slashSeparator]) /\
  (val deleted = toObjectErr env reduced bucket /\
   count is_backend (events deleted) = 0) /\
  (CheckValidBucketNameStrict env bucket = None ->
   val made = toObjectErr env reduced bucket /\
   count is_backend (events made) = 0 /\
   count is_undo (events made) = 0) /\
  (val stat = (BucketInfo_zero,
               reduceReadQuorumErrs env [] [] (getReadQuorum env 0)) /\
   count is_backend (events stat) = 0).
Proof.
  destruct er as [disks]. cbn [getDisks]. intros ->. cbv zeta.
  split; [done|]. split; [|split].
  - unfold DeleteBucket, deferNSUpdated, callReduceWriteQuorumErrs, bind,
      emit, ret.
    cbn -[toObjectErr].
    destruct (bool_decide _ && negb noRecreate);
      destruct (bool_decide _ || errors_Is _ _); cbn -[toObjectErr];
      by destruct (reduceWriteQuorumErrs _ _ _ _).
  - intros Hvalid. unfold MakeBucketWithLocation. rewrite Hvalid. done.
  - done.
Qed.
End EmptySet.

Lemma empty_backend_set_witness :
  let er : erasureObjects Scripted.Disk := {| getDisks := [] |} in
  let made := MakeBucketWithLocation Scripted.env er "bkt"
                {| Location := "" |} 0 in
  val made = Some InsufficientWriteQuorum /\
  count is_backend (events made) = 0 /\
  count is_undo (events made) = 0.
Proof.
  intros er made.
  destruct (empty_backend_set Scripted.env er "bkt" false
              {| Location := "" |} 0 eq_refl) as (_ & _ & Hmade & _).
  destruct (Hmade eq_refl) as (Hval & Hrest).
  split; [|exact Hrest]. etransitivity; [exact Hval|reflexivity].
Defined.
